(** * libbitcoin-node: header synchronisation and session dispatch

    A shallow embedding of [src/protocols/protocol_header_sync.cpp] and
    [src/session.cpp].  Callbacks that the C++ code hands to the network
    layer become explicit events; calls into collaborators (channel,
    handshake, mempool, poller, chain store) become entries of an ordered
    trace of actions. *)

From Stdlib Require Import ZArith NArith List Bool Lia.
From Stdlib Require String Ascii DecimalString DecimalN.
Import ListNotations.

Open Scope Z_scope.

(** ** Error codes *)

(** The values of [bc::error] that the two translation units name, plus the
    remaining (transport) codes.  [if (ec)] is true for every code but
    [success]. *)
Inductive code : Type :=
| success
| service_stopped
| operation_failed
| invalid_previous_block
| channel_timeout
| channel_stopped
| other_error (value : positive).

Definition code_eqb (a b : code) : bool :=
  match a, b with
  | success, success
  | service_stopped, service_stopped
  | operation_failed, operation_failed
  | invalid_previous_block, invalid_previous_block
  | channel_timeout, channel_timeout
  | channel_stopped, channel_stopped => true
  | other_error x, other_error y => Pos.eqb x y
  | _, _ => false
  end.

(** [static_cast<bool>(ec)] *)
Definition is_error (ec : code) : bool := negb (code_eqb ec success).

(** ** Machine integers *)

(** [size_t] on the 64-bit targets of the node; arithmetic wraps. *)
Definition size_bits : Z := 64.
Definition size_modulus : Z := 2 ^ size_bits.
Definition to_size (z : Z) : Z := z mod size_modulus.
Definition is_size (z : Z) : Prop := 0 <= z < size_modulus.

Definition max_uint32 : Z := 2 ^ 32 - 1.
Definition to_uint32 (z : Z) : Z := z mod 2 ^ 32.
Definition is_uint32 (z : Z) : Prop := 0 <= z <= max_uint32.

(** ** Hashes and block headers *)

(** A [hash_digest] is 32 bytes, read here as one 256-bit number. *)
Definition hash_digest : Type := Z.

Record header : Type := mk_header {
  version : Z;
  previous_block_hash : hash_digest;
  merkle : hash_digest;
  timestamp : Z;
  bits : Z;
  nonce : Z
}.

(** ** A small state monad for the handlers *)

Definition state_m (S A : Type) : Type := S -> A * S.

Definition ret {S A : Type} (a : A) : state_m S A := fun s => (a, s).

Definition bind {S A B : Type} (c : state_m S A) (k : A -> state_m S B)
  : state_m S B :=
  fun s => let (a, s') := c s in k a s'.

Definition gets {S A : Type} (f : S -> A) : state_m S A := fun s => (f s, s).

Definition modify {S : Type} (f : S -> S) : state_m S unit :=
  fun s => (tt, f s).

Declare Scope monad_scope.
Delimit Scope monad_scope with monad.
Notation "x <- c ;; k" := (bind c (fun x => k))
  (at level 61, c at next level, right associativity) : monad_scope.
Notation "c ;; k" := (bind c (fun _ => k))
  (at level 61, right associativity) : monad_scope.

(** ** The interface of the shared header list *)

(** The protocol reaches the shared header list only through these member
    functions of [header_list] (declared in [utility/header_list.hpp]). *)
Module Headers.

Class header_list_ops (L : Type) : Type := {
  first_height : L -> Z;
  previous_height : L -> Z;
  previous_hash : L -> hash_digest;
  stop_hash : L -> hash_digest;
  (** [merge] mutates the list and reports success. *)
  merge : L -> list header -> bool * L;
  complete : L -> bool
}.

End Headers.

(** ** The header slot table *)

Module HeaderList.

Section WithHash.

(** The block-header hash (double SHA-256 in the base library). *)
Variable header_hash : header -> hash_digest.

Record header_list : Type := mk_header_list {
  hl_first_height : Z;
  hl_first_hash : hash_digest;
  hl_stop_hash : hash_digest;
  hl_capacity : nat;
  slots : list header
}.

(** Modelled from the spec: [header_list] is declared in
    [utility/header_list.hpp] and defined outside the translation units at
    hand.  [previous_height()] is [first_height + len(slots) - 1], or
    [first_height - 1] if empty, as a [size_t]. *)
Definition hl_previous_height (t : header_list) : Z :=
  to_size (hl_first_height t + Z.of_nat (length (slots t)) - 1).

(** Modelled from the spec: [previous_hash()] is the hash-of-self of the
    last stored header, or [first_hash] if the table is empty. *)
Definition hl_previous_hash (t : header_list) : hash_digest :=
  last (map header_hash (slots t)) (hl_first_hash t).

(** Modelled from the spec: [complete()] is true when the last stored
    header's hash equals [stop_hash]. *)
Definition hl_complete (t : header_list) : bool :=
  match slots t with
  | [] => false
  | _ :: _ => Z.eqb (hl_previous_hash t) (hl_stop_hash t)
  end.

Definition push (t : header_list) (h : header) : header_list :=
  mk_header_list (hl_first_height t) (hl_first_hash t) (hl_stop_hash t)
    (hl_capacity t) (slots t ++ [h]).

(** Modelled from the spec: the append loop of [merge].  Headers are taken
    in order.  A header that does not link to [previous_hash()], or one
    that would overflow the capacity, fails the whole merge; a header that
    links is appended; headers beyond the stop hash are not appended:
    once the header whose hash is the stop hash is stored, the rest of
    the batch is ignored. *)
Fixpoint merge_loop (t : header_list) (batch : list header)
  : option header_list :=
  match batch with
  | [] => Some t
  | h :: rest =>
      if negb (Z.eqb (previous_block_hash h) (hl_previous_hash t))
      then None
      else if hl_complete t then Some t
      else if (hl_capacity t <=? length (slots t))%nat then None
      else if hl_complete (push t h) then Some (push t h)
      else merge_loop (push t h) rest
  end.

(** The list with its anchors and no slots. *)
Definition reset (t : header_list) : header_list :=
  mk_header_list (hl_first_height t) (hl_first_hash t) (hl_stop_hash t)
    (hl_capacity t) [].

(** Modelled from the spec: [merge(batch)] commits what the loop appended
    and returns true.  When the loop fails it returns false; for what is
    then left of the list the one statement in the source decides, the
    caller's comment in [handle_receive_headers]: a merge failure resets
    the headers list. *)
Definition hl_merge (t : header_list) (batch : list header)
  : bool * header_list :=
  match merge_loop t batch with
  | Some t' => (true, t')
  | None => (false, reset t)
  end.

(** Invariants 1 and 2 of the table: every slot names the hash of the slot
    before it, the first one names the anchor. *)
Fixpoint linked_from (prev : hash_digest) (hs : list header) : Prop :=
  match hs with
  | [] => True
  | h :: rest => previous_block_hash h = prev /\ linked_from (header_hash h) rest
  end.

Definition linked (t : header_list) : Prop :=
  linked_from (hl_first_hash t) (slots t).

(** Invariant 3. *)
Definition within_capacity (t : header_list) : Prop :=
  (length (slots t) <= hl_capacity t)%nat.

Definition same_anchors (t t' : header_list) : Prop :=
  hl_first_height t' = hl_first_height t /\
  hl_first_hash t' = hl_first_hash t /\
  hl_stop_hash t' = hl_stop_hash t /\
  hl_capacity t' = hl_capacity t.

Definition header_list_instance : Headers.header_list_ops header_list := {|
  Headers.first_height := hl_first_height;
  Headers.previous_height := hl_previous_height;
  Headers.previous_hash := hl_previous_hash;
  Headers.stop_hash := hl_stop_hash;
  Headers.merge := hl_merge;
  Headers.complete := hl_complete
|}.

End WithHash.

End HeaderList.

(** ** protocol_header_sync *)

Module ProtocolHeaderSync.

Local Open Scope monad_scope.

(** The interval in which header download rate is measured and tested. *)
Definition expiry_interval : Z := 5.

(** The most headers a peer packs into one [headers] message; the source
    comment at the comparison spells the number out. *)
Definition max_get_headers : nat := 2000.

(** What the protocol does to the outside: calls on the channel, on the
    base timer and on the handler given to [start]. *)
Inductive action : Type :=
| start_timer (interval : Z)
| subscribe_headers
| send_get_headers_request (locator : list hash_digest) (stop : hash_digest)
| invoke_handler (ec : code)
| stop_channel (ec : code).

Section WithHeaderList.

Context {L : Type} {ops : Headers.header_list_ops L}.

(** The members of the class, followed by the state of its collaborators:
    [stopped_] is what [stopped()] reads from the channel, [cleared_] is
    the counter of the synchronizer built in [start], [trace_] lists the
    actions taken so far, oldest first. *)
Record protocol_header_sync : Type := mk_protocol {
  headers_ : L;
  current_second_ : Z;
  minimum_rate_ : Z;
  start_size_ : Z;
  stopped_ : bool;
  cleared_ : bool;
  trace_ : list action
}.

Definition M : Type -> Type := state_m protocol_header_sync.
Definition event_handler : Type := code -> M unit.

Definition set_headers (l : L) (p : protocol_header_sync) :=
  mk_protocol l (current_second_ p) (minimum_rate_ p) (start_size_ p)
    (stopped_ p) (cleared_ p) (trace_ p).

Definition set_current_second (z : Z) (p : protocol_header_sync) :=
  mk_protocol (headers_ p) z (minimum_rate_ p) (start_size_ p)
    (stopped_ p) (cleared_ p) (trace_ p).

Definition set_stopped (b : bool) (p : protocol_header_sync) :=
  mk_protocol (headers_ p) (current_second_ p) (minimum_rate_ p)
    (start_size_ p) b (cleared_ p) (trace_ p).

Definition set_cleared (b : bool) (p : protocol_header_sync) :=
  mk_protocol (headers_ p) (current_second_ p) (minimum_rate_ p)
    (start_size_ p) (stopped_ p) b (trace_ p).

Definition record (a : action) (p : protocol_header_sync) :=
  mk_protocol (headers_ p) (current_second_ p) (minimum_rate_ p)
    (start_size_ p) (stopped_ p) (cleared_ p) (trace_ p ++ [a]).

Definition emit (a : action) : M unit := modify (record a).

(** The constructor: [current_second_(0)], [minimum_rate_(minimum_rate)],
    [start_size_(headers->previous_height() - headers->first_height())].
    [channel_is_stopped] is the state of the channel it is bound to. *)
Definition construct (channel_is_stopped : bool) (headers : L)
  (minimum_rate : Z) : protocol_header_sync :=
  mk_protocol headers 0 minimum_rate
    (to_size (Headers.previous_height headers - Headers.first_height headers))
    channel_is_stopped false [].

Definition stopped : M bool := gets stopped_.

(** Modelled from the spec: [protocol::stop] of the network library asks
    the channel to stop with the given code, after which [stopped()]
    holds. *)
Definition stop (ec : code) : M unit :=
  emit (stop_channel ec) ;; modify (set_stopped true).

(** Modelled from the spec: [synchronize(handler, 1, NAME)] of the base
    library is a one-shot barrier: the first invocation is forwarded to the
    handler, the rest are discarded. *)
Definition synchronize (handler : event_handler) : event_handler :=
  fun ec =>
    fired <- gets cleared_ ;;
    if fired then ret tt
    else modify (set_cleared true) ;; handler ec.

Definition send_get_headers (complete : event_handler) : M unit :=
  s <- stopped ;;
  if s then ret tt
  else
    l <- gets headers_ ;;
    emit (send_get_headers_request [Headers.previous_hash l]
            (Headers.stop_hash l)).

Definition handle_send (ec : code) (complete : event_handler) : M unit :=
  s <- stopped ;;
  if s then ret tt
  else if is_error ec then complete ec
  else ret tt.

(** The [LOG_*] statements of the handlers, and the [start] and [end]
    heights computed only for them, are diagnostics and are left out. *)
Definition handle_receive_headers (ec : code) (message : list header)
  (complete : event_handler) : M bool :=
  s <- stopped ;;
  if s then ret false
  else if is_error ec then complete ec ;; ret false
  else
    l <- gets headers_ ;;
    let (merged, l') := Headers.merge l message in
    modify (set_headers l') ;;
    if negb merged then complete invalid_previous_block ;; ret false
    else if Headers.complete l' then complete success ;; ret false
    else if (length message <? max_get_headers)%nat
    then complete operation_failed ;; ret false
    else send_get_headers complete ;; ret true.

(** [(headers_->previous_height() - start_size_) / current_second_] on
    [size_t].  The quotient of [Z] is total and gives 0 on a zero divisor,
    where the code traps; [current_second_] is zero at a division only
    after it has wrapped, and what is stated of the rate carries a divisor
    that is not zero.  [ProtocolWiring.fire] stops the instance instead of
    dividing by zero. *)
Definition sync_rate (p : protocol_header_sync) : Z :=
  to_size (Headers.previous_height (headers_ p) - start_size_ p)
  / current_second_ p.

Definition handle_event (ec : code) (complete : event_handler) : M unit :=
  if code_eqb ec channel_stopped then complete ec
  else if is_error ec && negb (code_eqb ec channel_timeout) then complete ec
  else
    now <- gets current_second_ ;;
    modify (set_current_second (to_size (now + expiry_interval))) ;;
    rate <- gets sync_rate ;;
    minimum <- gets minimum_rate_ ;;
    if rate <? minimum then complete channel_timeout
    else ret tt.

Definition headers_complete (ec : code) (handler : event_handler) : M unit :=
  handler ec ;; stop channel_stopped.

(** The members as [start(handler)] leaves them.  Where the closure
    [complete] ends up, in the timer, the subscription and the send, is
    not part of the members: [ProtocolWiring.start] keeps the closures
    beside them. *)
Definition start (handler : event_handler) : M unit :=
  modify (set_cleared false) ;;
  let complete := synchronize (fun ec => headers_complete ec handler) in
  emit (start_timer expiry_interval) ;;
  emit subscribe_headers ;;
  send_get_headers complete.

(** *** Runs of one protocol instance *)

(** The handler given to [start]; its invocation is observed in the trace. *)
Definition user_handler : event_handler := fun ec => emit (invoke_handler ec).

(** The [complete] closure that [start] binds into the three callbacks. *)
Definition barrier : event_handler :=
  synchronize (fun ec => headers_complete ec user_handler).

(** The callbacks that the network layer makes into the instance, and the
    channel being closed from outside.  [deliver] hands a callback to its
    handler at any time, with the closure that [start user_handler] has
    built: this allows every order in which the callbacks can arrive, and
    also callbacks that the network layer withholds, such as a tick on a
    stopped channel or a [headers] message after the subscription has
    ended.  What holds of all these runs holds of the runs that can
    happen; [ProtocolWiring] keeps the bound closures and the timer's
    [stopped()] test, for what depends on them. *)
Inductive event : Type :=
| headers_received (ec : code) (message : list header)
| timer_fired (ec : code)
| send_completed (ec : code)
| channel_closed.

Definition deliver (e : event) : M unit :=
  match e with
  | headers_received ec message =>
      _ <- handle_receive_headers ec message barrier ;; ret tt
  | timer_fired ec => handle_event ec barrier
  | send_completed ec => handle_send ec barrier
  | channel_closed => modify (set_stopped true)
  end.

Fixpoint deliver_all (es : list event) (p : protocol_header_sync)
  : protocol_header_sync :=
  match es with
  | [] => p
  | e :: rest => deliver_all rest (snd (deliver e p))
  end.

(** One run: construction, [start(handler)], then any sequence of
    callbacks in the order the threads happen to make them. *)
Definition run (channel_is_stopped : bool) (headers : L) (minimum_rate : Z)
  (es : list event) : protocol_header_sync :=
  deliver_all es
    (snd (start user_handler
            (construct channel_is_stopped headers minimum_rate))).

Definition is_completion (a : action) : bool :=
  match a with
  | invoke_handler _ | stop_channel _ => true
  | _ => false
  end.

(** The codes the user's handler has been invoked with, oldest first. *)
Fixpoint handler_calls (tr : list action) : list code :=
  match tr with
  | [] => []
  | invoke_handler ec :: rest => ec :: handler_calls rest
  | _ :: rest => handler_calls rest
  end.

(** The actions of a trace that complete the run: handler invocations and
    stop requests. *)
Definition completions (tr : list action) : list action :=
  filter is_completion tr.

(** The state a completion leaves behind when the barrier lets it pass. *)
Definition completed (ec : code) (p : protocol_header_sync) : protocol_header_sync :=
  set_stopped true
    (record (stop_channel channel_stopped)
       (record (invoke_handler ec) (set_cleared true p))).

(** The five outcomes of a [headers] delivery, spelled out as a table. *)
Definition receive_headers_by_cases (ec : code) (message : list header)
  (complete : event_handler) (p : protocol_header_sync) : bool * protocol_header_sync :=
  if stopped_ p then (false, p)
  else if is_error ec then (false, snd (complete ec p))
  else
    let l' := snd (Headers.merge (headers_ p) message) in
    let p' := set_headers l' p in
    if negb (fst (Headers.merge (headers_ p) message))
    then (false, snd (complete invalid_previous_block p'))
    else if Headers.complete l'
    then (false, snd (complete success p'))
    else if (length message <? max_get_headers)%nat
    then (false, snd (complete operation_failed p'))
    else (true,
          record (send_get_headers_request [Headers.previous_hash l']
                    (Headers.stop_hash l')) p').

(** One callback either leaves the completions of the trace and the
    barrier as they were, or passes the barrier and appends one handler
    invocation followed by the stop request. *)
Definition advances (p q : protocol_header_sync) : Prop :=
  (cleared_ q = cleared_ p /\
   completions (trace_ q) = completions (trace_ p)) \/
  (cleared_ p = false /\ cleared_ q = true /\
   exists ec,
     completions (trace_ q)
     = completions (trace_ p)
       ++ [invoke_handler ec; stop_channel channel_stopped]).

(** What a run has to satisfy at every point: nothing completed while the
    barrier is open, exactly one handler invocation and one stop request
    once it is closed. *)
Definition completed_once (p : protocol_header_sync) : Prop :=
  if cleared_ p
  then exists ec,
         completions (trace_ p)
         = [invoke_handler ec; stop_channel channel_stopped]
  else completions (trace_ p) = [].

End WithHeaderList.

Arguments protocol_header_sync L : clear implicits.

End ProtocolHeaderSync.

(** ** session *)

Module Session.

(** A connected peer, named by its authority. *)
Definition channel : Type := Z.

(** [channel_ptr] is a shared pointer; [None] is the null pointer. *)
Definition channel_ptr : Type := option channel.

Inductive inventory_type_id : Type :=
| transaction
| block
| unknown_type (id : Z).

Definition inventory_type_id_eqb (a b : inventory_type_id) : bool :=
  match a, b with
  | transaction, transaction => true
  | block, block => true
  | unknown_type x, unknown_type y => Z.eqb x y
  | _, _ => false
  end.

Record inventory_vector_type : Type := mk_inventory_vector {
  type : inventory_type_id;
  hash : hash_digest
}.

(** The [inv] message; [get_data] carries the same list of vectors. *)
Record inventory_type : Type := mk_inventory {
  inventories : list inventory_vector_type
}.

Definition get_data_type : Type := inventory_type.

Definition block_header_type : Type := header.

Record block_type : Type := mk_block {
  header : block_header_type;
  transactions : list hash_digest
}.

(** Which of the two messages of an error branch was logged. *)
Inductive failure : Type :=
| establish_channel
| get_inventory
| get_blocks_failure
| get_tx.

(** Calls the session makes on its collaborators, in program order. *)
Inductive action : Type :=
| log_error (what : failure) (node : channel_ptr) (ec : code)
| log_warning_unknown_inventory (node : channel)
| protocol_start
| protocol_stop
| protocol_subscribe_channel
| protocol_broadcast (packet : inventory_type)
| chain_fetch_last_height
| chain_subscribe_reorganize
| handshake_set_start_height (height : Z)
| node_subscribe_inventory (node : channel)
| node_subscribe_get_blocks (node : channel)
| node_send (node : channel) (packet : get_data_type)
| poll_query (node : channel)
| poll_monitor (node : channel)
| strand_post_new_tx_inventory (tx_hash : hash_digest) (node : channel_ptr)
| tx_pool_exists (tx_hash : hash_digest).

(** A handler lists the calls it made and either returns ([Some]) or is
    cut short by a failed assertion or a null dereference ([None]). *)
Definition W (A : Type) : Type := list action * option A.

Definition wret {A : Type} (a : A) : W A := ([], Some a).

Definition wbind {A B : Type} (c : W A) (k : A -> W B) : W B :=
  match c with
  | (done, None) => (done, None)
  | (done, Some a) => let (more, r) := k a in (done ++ more, r)
  end.

Definition call (a : action) : W unit := ([a], Some tt).

Definition abort {A : Type} : W A := ([], None).

Declare Scope session_scope.
Delimit Scope session_scope with session.
Notation "x <- c ;; k" := (wbind c (fun x => k))
  (at level 61, c at next level, right associativity) : session_scope.
Notation "c ;; k" := (wbind c (fun _ => k))
  (at level 61, right associativity) : session_scope.

Local Open Scope session_scope.

(** [node->...]: dereferencing the null pointer ends the handler. *)
Definition deref (node : channel_ptr) : W channel :=
  match node with
  | Some c => wret c
  | None => abort
  end.

Fixpoint for_each {A : Type} (body : A -> W unit) (l : list A) : W unit :=
  match l with
  | [] => wret tt
  | x :: rest => body x ;; for_each body rest
  end.

Section WithCollaborators.

(** [BITCOIN_ASSERT] comes from the base library: it aborts in builds with
    assertions and expands to nothing under [NDEBUG]. *)
Variable assertions : bool.

(** [hash_block_header] of the base library. *)
Variable hash_block_header : block_header_type -> hash_digest.

(** What the transaction pool answers to [exists]. *)
Variable tx_pool : hash_digest -> bool.

Definition BITCOIN_ASSERT (condition : bool) : W unit :=
  if assertions && negb condition then abort else wret tt.

Definition start : W unit :=
  call protocol_start ;;
  call protocol_subscribe_channel ;;
  call chain_fetch_last_height ;;
  call chain_subscribe_reorganize.

Definition stop : W unit := call protocol_stop.

Definition new_channel (ec : code) (node : channel_ptr) : W unit :=
  if is_error ec then call (log_error establish_channel node ec)
  else
    BITCOIN_ASSERT (match node with Some _ => true | None => false end) ;;
    c <- deref node ;;
    call (node_subscribe_inventory c) ;;
    call (node_subscribe_get_blocks c) ;;
    call protocol_subscribe_channel ;;
    call (poll_query c) ;;
    call (poll_monitor c).

(** The loop that fills [blocks_inventory] by [push_back]. *)
Definition push_back (inv : inventory_type) (v : inventory_vector_type)
  : inventory_type :=
  mk_inventory (inventories inv ++ [v]).

Definition blocks_inventory_of (new_blocks : list block_type)
  : inventory_type :=
  fold_left
    (fun inv b => push_back inv (mk_inventory_vector block
                                   (hash_block_header (header b))))
    new_blocks (mk_inventory []).

Definition set_start_height (ec : code) (fork_point : Z)
  (new_blocks replaced_blocks : list block_type) : W unit :=
  if is_error ec then BITCOIN_ASSERT (code_eqb ec service_stopped)
  else
    BITCOIN_ASSERT
      (Z.of_nat (length new_blocks) <=? to_uint32 (max_uint32 - fork_point)) ;;
    let height :=
      to_uint32 (to_size (fork_point + Z.of_nat (length new_blocks))) in
    call (handshake_set_start_height height) ;;
    call chain_subscribe_reorganize ;;
    let blocks_inventory := blocks_inventory_of new_blocks in
    call (protocol_broadcast blocks_inventory).

Definition inventory (ec : code) (packet : inventory_type)
  (node : channel_ptr) : W unit :=
  if is_error ec then call (log_error get_inventory node ec)
  else
    for_each
      (fun inv =>
         if inventory_type_id_eqb (type inv) transaction
         then call (strand_post_new_tx_inventory (hash inv) node)
         else if negb (inventory_type_id_eqb (type inv) block)
         then c <- deref node ;; call (log_warning_unknown_inventory c)
         else wret tt)
      (inventories packet) ;;
    BITCOIN_ASSERT (match node with Some _ => true | None => false end) ;;
    c <- deref node ;;
    call (node_subscribe_inventory c).

Definition request_tx_data (tx_exists : bool) (tx_hash : hash_digest)
  (node : channel_ptr) : W unit :=
  if tx_exists then wret tt
  else
    let request_tx :=
      push_back (mk_inventory []) (mk_inventory_vector transaction tx_hash) in
    BITCOIN_ASSERT (match node with Some _ => true | None => false end) ;;
    c <- deref node ;;
    call (node_send c request_tx).

(** [tx_pool_.exists] is handed [request_tx_data] as its callback and
    invokes it with its answer. *)
Definition new_tx_inventory (tx_hash : hash_digest) (node : channel_ptr)
  : W unit :=
  call (tx_pool_exists tx_hash) ;;
  request_tx_data (tx_pool tx_hash) tx_hash node.

Definition get_blocks (ec : code) (node : channel_ptr) : W unit :=
  if is_error ec then call (log_error get_blocks_failure node ec)
  else
    BITCOIN_ASSERT (match node with Some _ => true | None => false end) ;;
    c <- deref node ;;
    call (node_subscribe_get_blocks c).

(** *** The new-channel subscription of the session *)

Definition is_subscribe_channel (a : action) : bool :=
  match a with
  | protocol_subscribe_channel => true
  | _ => false
  end.

Definition is_broadcast (a : action) : bool :=
  match a with
  | protocol_broadcast _ => true
  | _ => false
  end.

(** What the peer protocol layer holds for the session: whether a
    [new_channel] callback is registered, how many notifications the
    session has handled, what the session did, and whether a handler was
    cut short. *)
Record subscription : Type := mk_subscription {
  subscribed : bool;
  handled : nat;
  performed : list action;
  crashed : bool
}.

(** Modelled from the spec: [subscribe_channel] of the peer protocol layer
    is single-shot.  A notification is handed to the registered callback,
    which is thereby consumed; the session is registered again only if the
    handler subscribes anew. *)
Definition notify (s : subscription) (n : code * channel_ptr)
  : subscription :=
  if crashed s then s
  else if subscribed s then
    let (acts, r) := new_channel (fst n) (snd n) in
    mk_subscription (existsb is_subscribe_channel acts) (S (handled s))
      (performed s ++ acts)
      (match r with Some _ => false | None => true end)
  else s.

Definition notify_all (s : subscription) (ns : list (code * channel_ptr))
  : subscription :=
  fold_left notify ns s.

(** The subscription as [session::start] leaves it. *)
Definition after_start : subscription :=
  mk_subscription (existsb is_subscribe_channel (fst start)) 0 [] false.

End WithCollaborators.

End Session.

(** ** The message streams of the session *)

Module SessionStreams.

Import Session.

Local Open Scope session_scope.

Definition is_node_send (a : action) : bool :=
  match a with
  | node_send _ _ => true
  | _ => false
  end.

(** What the loop of [session::inventory] does for one vector on a
    channel: a task for a transaction, nothing for a block, a warning for
    anything else. *)
Definition inventory_vector_calls (node : channel)
  (v : inventory_vector_type) : list action :=
  match type v with
  | transaction => [strand_post_new_tx_inventory (hash v) (Some node)]
  | block => []
  | unknown_type _ => [log_warning_unknown_inventory node]
  end.

(** What [session::new_channel] does for a channel that came up. *)
Definition channel_calls (node : channel) : list action :=
  [node_subscribe_inventory node;
   node_subscribe_get_blocks node;
   protocol_subscribe_channel;
   poll_query node;
   poll_monitor node].

(** The body of the loop of [session::inventory] for one vector. *)
Definition vector_body (node : channel_ptr) (inv : inventory_vector_type)
  : W unit :=
  if inventory_type_id_eqb (type inv) transaction
  then call (strand_post_new_tx_inventory (hash inv) node)
  else if negb (inventory_type_id_eqb (type inv) block)
  then c <- deref node ;; call (log_warning_unknown_inventory c)
  else wret tt.

(** The announced transactions the pool does not hold. *)
Definition is_wanted (tx_pool : hash_digest -> bool)
  (v : inventory_vector_type) : bool :=
  inventory_type_id_eqb (type v) transaction && negb (tx_pool (hash v)).

Section WithCollaborators.

Variable assertions : bool.
Variable tx_pool : hash_digest -> bool.

(** [strand_.post(std::bind(&session::new_tx_inventory, ...))]: the strand
    runs the posted tasks one at a time, in the order they were posted;
    the other calls of a handler are not tasks. *)
Definition run_task (a : action) : W unit :=
  match a with
  | strand_post_new_tx_inventory tx_hash node =>
      new_tx_inventory assertions tx_pool tx_hash node
  | _ => wret tt
  end.

Definition run_strand (posted : list action) : W unit :=
  for_each run_task posted.

End WithCollaborators.

End SessionStreams.

(** ** Single-shot subscriptions *)

Module Subscription.

Section Stream.

Variables E A : Type.

(** The registered callback: what it calls, and whether it returns. *)
Variable handler : E -> list A * option unit.

(** The calls by which the callback registers itself again. *)
Variable renews : A -> bool.

Record stream : Type := mk_stream {
  armed : bool;
  delivered : nat;
  calls : list A;
  halted : bool
}.

(** Modelled from the spec: a subscription on the network layer is
    single-shot.  A delivery goes to the registered callback, which is
    thereby consumed; the callback is registered again only if it
    subscribes anew; a callback that is cut short takes the process
    with it. *)
Definition feed (s : stream) (e : E) : stream :=
  if halted s then s
  else if armed s then
    let (acts, r) := handler e in
    mk_stream (existsb renews acts) (S (delivered s)) (calls s ++ acts)
      (match r with Some _ => false | None => true end)
  else s.

Definition feed_all (s : stream) (es : list E) : stream :=
  fold_left feed es s.

(** A subscription that has just been made. *)
Definition fresh : stream := mk_stream true 0 [] false.

End Stream.

Arguments mk_stream {A} _ _ _ _.
Arguments armed {A} _.
Arguments delivered {A} _.
Arguments calls {A} _.
Arguments halted {A} _.
Arguments feed {E A} _ _ _ _.
Arguments feed_all {E A} _ _ _ _.
Arguments fresh {A}.

End Subscription.

(** ** full_node *)

Module FullNode.

Import String.StringSyntax Ascii.AsciiSyntax.

Local Open Scope char_scope.

Definition comma : Ascii.ascii := ",".

Local Close Scope char_scope.
Local Open Scope string_scope.

(** The messages of [full_node.cpp], named as its macros. *)
Inductive message : Type :=
| BN_CONNECTION_START_ERROR
| BN_SESSION_START_ERROR
| BN_SESSION_STOP_ERROR
| BN_TX_ACCEPTED
| BN_TX_ACCEPTED_WITH_INPUTS
| BN_TX_CONFIRMED
| BN_TX_ACCEPT_ERROR
| BN_TX_CONFIRM_ERROR
| BN_TX_DEINDEX_ERROR
| BN_TX_INDEX_ERROR
| BN_TX_RECEIVE_ERROR.

Inductive level : Type := debug | warning | error.

Inductive threadpool : Type :=
| network_threads_
| database_threads_
| memory_threads_.

(** [boost::lexical_cast<std::string>] of an unsigned index: its decimal
    digits. *)
Definition lexical_cast (input : N) : String.string :=
  DecimalString.NilEmpty.string_of_uint (N.to_uint input).

(** [bc::join(inputs, ",")] *)
Definition join (tokens : list String.string) (delimiter : String.string)
  : String.string :=
  String.concat delimiter tokens.

Definition format_unconfirmed_inputs (unconfirmed : list N) : String.string :=
  match unconfirmed with
  | [] => String.EmptyString
  | _ :: _ => join (map lexical_cast unconfirmed) ","
  end.

(** *** Reading the formatted list back *)

(** The fields of a string between its commas. *)
Fixpoint split_commas (s : String.string) : list String.string :=
  match s with
  | String.EmptyString => [String.EmptyString]
  | String.String c rest =>
      if Ascii.eqb c comma then String.EmptyString :: split_commas rest
      else match split_commas rest with
           | [] => [String.String c String.EmptyString]
           | field :: fields => String.String c field :: fields
           end
  end.

Fixpoint comma_free (s : String.string) : bool :=
  match s with
  | String.EmptyString => true
  | String.String c rest => negb (Ascii.eqb c comma) && comma_free rest
  end.

Definition read_index (field : String.string) : option N :=
  option_map N.of_uint (DecimalString.NilEmpty.uint_of_string field).

Fixpoint read_indexes (fields : list String.string) : option (list N) :=
  match fields with
  | [] => Some []
  | field :: rest =>
      match read_index field, read_indexes rest with
      | Some n, Some ns => Some (n :: ns)
      | _, _ => None
      end
  end.

Definition read_unconfirmed_inputs (s : String.string) : option (list N) :=
  match s with
  | String.EmptyString => Some []
  | _ => read_indexes (split_commas s)
  end.

Section WithCollaborators.

(** A transaction, its hash and the hexadecimal text of a hash, all of the
    base library; [message_of] is [ec.message()]. *)
Variable transaction_type : Type.
Variable hash_transaction : transaction_type -> hash_digest.
Variable encode_hash : hash_digest -> String.string.
Variable message_of : code -> String.string.

Inductive action : Type :=
| protocol_subscribe_channel
| blockchain_start
| blockchain_stop
| tx_pool_start
| session_start
| session_stop
| threads_stop (pool : threadpool)
| threads_join (pool : threadpool)
| node_subscribe_transaction (node : Session.channel)
| tx_pool_store (tx : transaction_type)
| tx_indexer_index (tx : transaction_type)
| tx_indexer_deindex (tx : transaction_type)
| log (severity : level) (text : message) (arguments : list String.string).

(** [blockchain_started] is what [blockchain_.start()] returns. *)
Definition start (blockchain_started : bool) : list action * bool :=
  if negb blockchain_started
  then ([protocol_subscribe_channel; blockchain_start], false)
  else ([protocol_subscribe_channel; blockchain_start; tx_pool_start;
         session_start],
        true).

(** [session_stopped] is the code that the session hands to the stop
    handler and that the promise delivers. *)
Definition stop (session_stopped : code) : list action :=
  [session_stop]
  ++ (if is_error session_stopped
      then [log error BN_SESSION_STOP_ERROR [message_of session_stopped]]
      else [])
  ++ [blockchain_stop;
      threads_stop network_threads_;
      threads_stop database_threads_;
      threads_stop memory_threads_;
      threads_join network_threads_;
      threads_join database_threads_;
      threads_join memory_threads_].

Definition handle_start (ec : code) : list action :=
  if is_error ec then [log error BN_SESSION_START_ERROR [message_of ec]]
  else [].

Definition connection_started (ec : code) (node : Session.channel_ptr)
  : list action * option unit :=
  if is_error ec
  then ([log warning BN_CONNECTION_START_ERROR [message_of ec]], Some tt)
  else match node with
       | None => ([], None)
       | Some c =>
           ([node_subscribe_transaction c; protocol_subscribe_channel],
            Some tt)
       end.

Definition recieve_tx (ec : code) (tx : transaction_type)
  (node : Session.channel_ptr) : list action * option unit :=
  if is_error ec
  then ([log error BN_TX_RECEIVE_ERROR
           [encode_hash (hash_transaction tx); message_of ec]],
        Some tt)
  else match node with
       | None => ([tx_pool_store tx], None)
       | Some c => ([tx_pool_store tx; node_subscribe_transaction c], Some tt)
       end.

(** The [handle_confirm] closure that [recieve_tx] hands to the pool; the
    [handle_deindex] and [handle_index] closures only log and are left
    out. *)
Definition handle_confirm (tx : transaction_type) (ec : code) : list action :=
  (if is_error ec
   then [log error BN_TX_CONFIRM_ERROR
           [encode_hash (hash_transaction tx); message_of ec]]
   else [log debug BN_TX_CONFIRMED [encode_hash (hash_transaction tx)]])
  ++ [tx_indexer_deindex tx].

Definition new_unconfirm_valid_tx (ec : code) (unconfirmed : list N)
  (tx : transaction_type) : list action :=
  (if is_error ec
   then [log warning BN_TX_ACCEPT_ERROR
           [encode_hash (hash_transaction tx); message_of ec]]
   else match unconfirmed with
        | [] => [log debug BN_TX_ACCEPTED [encode_hash (hash_transaction tx)]]
        | _ :: _ =>
            [log debug BN_TX_ACCEPTED_WITH_INPUTS
               [encode_hash (hash_transaction tx);
                format_unconfirmed_inputs unconfirmed]]
        end)
  ++ (if negb (is_error ec) then [tx_indexer_index tx] else []).

Definition is_subscribe_channel (a : action) : bool :=
  match a with
  | protocol_subscribe_channel => true
  | _ => false
  end.

Definition renews_transactions (node : Session.channel) (a : action) : bool :=
  match a with
  | node_subscribe_transaction c => Z.eqb c node
  | _ => false
  end.

(** The channels whose transaction stream a list of calls subscribes to,
    and the transactions it stores. *)
Fixpoint subscribed_channels (acts : list action) : list Session.channel :=
  match acts with
  | [] => []
  | node_subscribe_transaction c :: rest => c :: subscribed_channels rest
  | _ :: rest => subscribed_channels rest
  end.

Fixpoint stored (acts : list action) : list transaction_type :=
  match acts with
  | [] => []
  | tx_pool_store tx :: rest => tx :: stored rest
  | _ :: rest => stored rest
  end.

(** The new-connection subscription of the node and the transaction
    subscription on one channel, fed with what the network delivers. *)
Definition connections (es : list (code * Session.channel_ptr))
  : Subscription.stream action :=
  Subscription.feed_all (fun e => connection_started (fst e) (snd e))
    is_subscribe_channel Subscription.fresh es.

Definition transactions_of (node : Session.channel)
  (es : list (code * transaction_type)) : Subscription.stream action :=
  Subscription.feed_all (fun e => recieve_tx (fst e) (snd e) (Some node))
    (renews_transactions node) Subscription.fresh es.

End WithCollaborators.

End FullNode.

(** ** parser *)

Module Parser.

Section WithBase.

(** [boost::program_options::variables_map], and the settings of
    [configuration] other than the path of the settings file. *)
Variable variables_map : Type.
Variable settings : Type.

Record configuration : Type := mk_configuration {
  file : String.string;
  others : settings
}.

(** The loaders of the base class [config::parser] and [notify] of the
    options library.  Each may throw a [boost::program_options::error],
    whose [what()] is the left summand; [notify] writes the bound
    variables into [configured] and may have written some when it
    throws. *)
Variable load_command_variables :
  variables_map -> list String.string -> String.string + variables_map.
Variable load_environment_variables :
  variables_map -> String.string -> String.string + variables_map.
Variable get_option : variables_map -> String.string -> bool.
Variable load_configuration_variables :
  variables_map -> String.string -> String.string + bool * variables_map.
Variable notify :
  variables_map -> configuration -> option String.string * configuration.
Variable format_invalid_parameter : String.string -> String.string.

(** The names behind the macros of [parser.hpp]. *)
Variable BN_CONFIG_VARIABLE : String.string.
Variable BN_HELP_VARIABLE : String.string.
Variable BN_SETTINGS_VARIABLE : String.string.
Variable BN_VERSION_VARIABLE : String.string.
Variable BN_ENVIRONMENT_VARIABLE_PREFIX : String.string.

(** A default-constructed [variables_map]. *)
Variable no_variables : variables_map.

(** What [parse] leaves: its result, [configured], and what it wrote to
    the error stream. *)
Record parsed : Type := mk_parsed {
  result : bool;
  configured : configuration;
  errors : list String.string
}.

Definition caught (what : String.string) (c : configuration) : parsed :=
  mk_parsed false c [format_invalid_parameter what].

Definition parse (argv : list String.string) (c : configuration) : parsed :=
  match load_command_variables no_variables argv with
  | inl what => caught what c
  | inr variables =>
      match load_environment_variables variables
              BN_ENVIRONMENT_VARIABLE_PREFIX with
      | inl what => caught what c
      | inr variables =>
          match
            (if negb (get_option variables BN_VERSION_VARIABLE)
                && negb (get_option variables BN_SETTINGS_VARIABLE)
                && negb (get_option variables BN_HELP_VARIABLE)
             then load_configuration_variables variables BN_CONFIG_VARIABLE
             else inr (false, variables))
          with
          | inl what => caught what c
          | inr (from_file, variables) =>
              match notify variables c with
              | (Some what, c') => caught what c'
              | (None, c') =>
                  mk_parsed true
                    (if negb from_file
                     then mk_configuration String.EmptyString (others c')
                     else c')
                    []
              end
          end
      end
  end.

(** Whether the command line and the environment, once loaded, ask for
    the version, the settings or the help. *)
Definition asks_for_display (argv : list String.string) : bool :=
  match load_command_variables no_variables argv with
  | inl _ => false
  | inr variables =>
      match load_environment_variables variables
              BN_ENVIRONMENT_VARIABLE_PREFIX with
      | inl _ => false
      | inr variables =>
          get_option variables BN_VERSION_VARIABLE
          || get_option variables BN_SETTINGS_VARIABLE
          || get_option variables BN_HELP_VARIABLE
      end
  end.

End WithBase.

End Parser.

(** ** Measures over runs of the header-sync protocol *)

Module ProtocolHeaderSyncRuns.

Import ProtocolHeaderSync.

Definition is_request (a : action) : bool :=
  match a with
  | send_get_headers_request _ _ => true
  | _ => false
  end.

(** The [get_headers] requests of a trace, oldest first. *)
Definition requests (tr : list action) : list action := filter is_request tr.

(** The codes on which [handle_event] completes at once instead of
    counting an interval: [channel_stopped] and every error other than
    [channel_timeout]. *)
Definition ends_timer (ec : code) : bool :=
  code_eqb ec channel_stopped
  || (is_error ec && negb (code_eqb ec channel_timeout)).

(** A callback that [handle_event] counts as one elapsed interval. *)
Definition is_tick (e : event) : bool :=
  match e with
  | timer_fired ec => negb (ends_timer ec)
  | _ => false
  end.

Definition ticks (es : list event) : Z :=
  Z.of_nat (length (filter is_tick es)).

(** A [headers] delivery without error code that carries at least
    [max_get_headers] headers. *)
Definition is_full_batch (e : event) : bool :=
  match e with
  | headers_received ec message =>
      negb (is_error ec) && negb (length message <? max_get_headers)%nat
  | _ => false
  end.

Definition full_batches (es : list event) : nat :=
  length (filter is_full_batch es).

Section WithHeaderList.

Context {L : Type} {ops : Headers.header_list_ops L}.

(** The state with the interval counter blanked, to compare two states up
    to [current_second_]. *)
Definition without_clock (p : protocol_header_sync L)
  : protocol_header_sync L :=
  set_current_second 0 p.

(** What holds of every state a run reaches: a closed barrier means a
    stopped channel, the handler has seen [success] only on a complete
    list, and an open barrier means the handler has not run. *)
Definition settled (p : protocol_header_sync L) : Prop :=
  (cleared_ p = true ->
   stopped_ p = true /\
   (In success (handler_calls (trace_ p)) ->
    Headers.complete (headers_ p) = true)) /\
  (cleared_ p = false -> handler_calls (trace_ p) = []).

End WithHeaderList.

End ProtocolHeaderSyncRuns.

(** ** The protocol instance and the callbacks bound to it *)

Module ProtocolWiring.

Import ProtocolHeaderSync ProtocolHeaderSyncRuns.

Section WithHeaderList.

Context {L : Type} {ops : Headers.header_list_ops L}.

(** The object with the closures that [start] has handed to the network
    layer: [on_event] is the [complete] bound into [handle_event] by
    [protocol_timer::start], [on_headers] the one bound into
    [handle_receive_headers] by the [headers] subscription, [on_send] the
    ones bound into [handle_send], one for each request in flight, oldest
    first.  [trapped] is set once the rate has been divided by zero. *)
Record instance : Type := mk_instance {
  members : protocol_header_sync L;
  on_event : option (@event_handler L);
  on_headers : option (@event_handler L);
  on_send : list (@event_handler L);
  trapped : bool
}.

Definition with_members
  (f : protocol_header_sync L -> protocol_header_sync L) (i : instance)
  : instance :=
  mk_instance (f (members i)) (on_event i) (on_headers i) (on_send i)
    (trapped i).

(** The instance as the constructor leaves it: nothing is bound yet. *)
Definition construct (channel_is_stopped : bool) (headers : L)
  (minimum_rate : Z) : instance :=
  mk_instance
    (ProtocolHeaderSync.construct channel_is_stopped headers minimum_rate)
    None None [] false.

(** [send_get_headers(complete)]: [SEND2(request, handle_send, _1,
    complete)] sends the request and binds [complete] into its
    [handle_send]. *)
Definition send_get_headers (complete : event_handler) (i : instance)
  : instance :=
  if stopped_ (members i) then i
  else
    mk_instance
      (snd (ProtocolHeaderSync.send_get_headers complete (members i)))
      (on_event i) (on_headers i) (on_send i ++ [complete]) (trapped i).

(** [start(handler)], statement by statement: the synchronizer is built
    over [headers_complete] and the handler, and the one closure
    [complete] goes to the timer, to the [headers] subscription and to
    [send_get_headers]. *)
Definition start (handler : event_handler) (i : instance) : instance :=
  let complete := synchronize (fun ec => headers_complete ec handler) in
  let i := with_members (set_cleared false) i in
  let i :=
    mk_instance (record (start_timer expiry_interval) (members i))
      (Some complete) (on_headers i) (on_send i) (trapped i) in
  let i :=
    mk_instance (record subscribe_headers (members i))
      (on_event i) (Some complete) (on_send i) (trapped i) in
  send_get_headers complete i.

(** Modelled from the spec: the base [protocol_timer] hands a timer code
    to the bound [handle_event] only while the channel is not stopped
    (the [stopped()] test of the design, 4.5); the stop handler hands it
    [channel_stopped] whenever the channel stops.  A tick that advances
    [current_second_] to 0 divides by zero. *)
Definition fire (ec : code) (complete : event_handler) (i : instance)
  : instance :=
  if code_eqb ec channel_stopped
  then with_members (fun m => snd (handle_event ec complete m)) i
  else if stopped_ (members i) then i
  else if negb (ends_timer ec)
          && (to_size (current_second_ (members i) + expiry_interval) =? 0)
  then mk_instance (members i) (on_event i) (on_headers i) (on_send i) true
  else with_members (fun m => snd (handle_event ec complete m)) i.

(** Modelled from the spec: what the network layer does with one
    callback.  It calls the closure that is bound, if any; the [headers]
    subscription is kept exactly when the handler returns true (4.4), and
    that is the branch which ends in [send_get_headers(complete)]; a send
    result goes to the oldest request in flight; a channel that is closed
    is stopped and fires the stop handler. *)
Definition deliver (e : event) (i : instance) : instance :=
  if trapped i then i
  else
    match e with
    | headers_received ec message =>
        match on_headers i with
        | None => i
        | Some complete =>
            let (keep, m) :=
              handle_receive_headers ec message complete (members i) in
            mk_instance m (on_event i)
              (if keep then Some complete else None)
              (if keep then on_send i ++ [complete] else on_send i)
              false
        end
    | timer_fired ec =>
        match on_event i with
        | None => i
        | Some complete => fire ec complete i
        end
    | send_completed ec =>
        match on_send i with
        | [] => i
        | complete :: rest =>
            mk_instance (snd (handle_send ec complete (members i)))
              (on_event i) (on_headers i) rest false
        end
    | channel_closed =>
        let i := with_members (set_stopped true) i in
        match on_event i with
        | None => i
        | Some complete => fire channel_stopped complete i
        end
    end.

Fixpoint deliver_all (es : list event) (i : instance) : instance :=
  match es with
  | [] => i
  | e :: rest => deliver_all rest (deliver e i)
  end.

(** One run with a given handler: construction, [start(handler)], then
    the callbacks the network layer makes, in any order. *)
Definition run_with (handler : event_handler) (channel_is_stopped : bool)
  (headers : L) (minimum_rate : Z) (es : list event) : instance :=
  deliver_all es
    (start handler (construct channel_is_stopped headers minimum_rate)).

Definition run : bool -> L -> Z -> list event -> instance :=
  run_with user_handler.

(** Every closure bound to the instance is [c]. *)
Definition wired_to (c : event_handler) (i : instance) : Prop :=
  (forall k, on_event i = Some k -> k = c) /\
  (forall k, on_headers i = Some k -> k = c) /\
  (forall k, In k (on_send i) -> k = c).

(** What holds of every instance a run with [user_handler] reaches. *)
Definition sound (i : instance) : Prop :=
  wired_to barrier i /\
  on_event i = Some barrier /\
  completed_once (members i) /\
  settled (members i) /\
  (stopped_ (members i) = false -> on_headers i = Some barrier).

End WithHeaderList.

End ProtocolWiring.

(** ** Concrete instances used to exercise the definitions *)

Module Examples.

Import HeaderList.

(** A three-slot table anchored at [0x10] and two batches for it; the hash
    of a header is read off its nonce. *)
Definition toy_hash (h : header) : hash_digest := nonce h.
Definition toy_header (prev self : Z) : header := mk_header 1 prev 0 0 0 self.
Definition toy_table : header_list := mk_header_list 0 16 19 3 [].
Definition good_batch : list header :=
  [toy_header 16 17; toy_header 17 18; toy_header 18 19].
Definition bad_batch : list header :=
  [toy_header 57005 17; toy_header 17 18].

#[export] Instance toy_ops : Headers.header_list_ops header_list :=
  header_list_instance toy_hash.

(** [n] headers, each naming the one before it, the first naming [prev]. *)
Fixpoint chain_from (prev : Z) (n : nat) : list header :=
  match n with
  | O => []
  | S n' => toy_header prev (prev + 1) :: chain_from (prev + 1) n'
  end.

(** An empty table for heights 100 to 5099, and one for heights 0 to 2. *)
Definition table_at_100 : header_list := mk_header_list 100 16 99999 5000 [].

(** A protocol instance right after [start]. *)
Definition started : ProtocolHeaderSync.protocol_header_sync header_list :=
  ProtocolHeaderSync.run false toy_table 10 [].

(** An instance with its callbacks bound whose channel has been closed,
    and one whose peer has delivered the whole list. *)
Definition closed : ProtocolWiring.instance :=
  ProtocolWiring.run false toy_table 10 [ProtocolHeaderSync.channel_closed].

Definition synced : ProtocolWiring.instance :=
  ProtocolWiring.run false toy_table 10
    [ProtocolHeaderSync.headers_received success good_batch].

(** A run from height 100 with minimum rate 10 in which the peer delivers
    nothing and the first tick arrives, and the same run from height 0. *)
Definition idle_at_100 : ProtocolHeaderSync.protocol_header_sync header_list :=
  ProtocolHeaderSync.run false table_at_100 10
    [ProtocolHeaderSync.timer_fired channel_timeout].

Definition idle_at_0 : ProtocolHeaderSync.protocol_header_sync header_list :=
  ProtocolHeaderSync.run false toy_table 10
    [ProtocolHeaderSync.timer_fired channel_timeout].


(** Two blocks that a reorganization brings in. *)
Definition block_101 : Session.block_type :=
  Session.mk_block (toy_header 100 101) [].
Definition block_102 : Session.block_type :=
  Session.mk_block (toy_header 101 102) [].

End Examples.

(** ** Further concrete runs *)

Module MoreExamples.

Import HeaderList Examples.

(** A protocol instance whose channel the peer has closed before any
    header arrived; the barrier is still open. *)
Definition closed_early : ProtocolHeaderSync.protocol_header_sync header_list :=
  ProtocolHeaderSync.run false toy_table 10 [ProtocolHeaderSync.channel_closed].

(** The callbacks of a clean sync of the three-slot table, and callbacks
    that arrive late. *)
Definition clean_sync : list ProtocolHeaderSync.event :=
  [ProtocolHeaderSync.headers_received success good_batch].

Definition stragglers : list ProtocolHeaderSync.event :=
  [ProtocolHeaderSync.headers_received success bad_batch;
   ProtocolHeaderSync.timer_fired channel_timeout;
   ProtocolHeaderSync.send_completed (other_error 1)].

Definition two_ticks : list ProtocolHeaderSync.event :=
  [ProtocolHeaderSync.timer_fired channel_timeout;
   ProtocolHeaderSync.send_completed success;
   ProtocolHeaderSync.timer_fired success].

(** An [inv] message announcing two transactions, a block and a vector of
    a type the session does not know, and a pool that holds only the
    transaction 42. *)
Definition mixed_packet : Session.inventory_type :=
  Session.mk_inventory
    [Session.mk_inventory_vector Session.transaction 42;
     Session.mk_inventory_vector Session.block 7;
     Session.mk_inventory_vector (Session.unknown_type 9) 5;
     Session.mk_inventory_vector Session.transaction 43].

Definition pool_with_42 (tx_hash : hash_digest) : bool := Z.eqb tx_hash 42.

Import String.StringSyntax.

Local Open Scope string_scope.

Definition toy_path : String.string := "bn.cfg".
Definition toy_config : String.string := "config".
Definition toy_help : String.string := "help".
Definition toy_settings : String.string := "settings".
Definition toy_version : String.string := "version".
Definition toy_prefix : String.string := "BN_".

Local Close Scope string_scope.

(** A toy command line: the variables are the words given, the settings
    file always loads, and [notify] fills in the path [bn.cfg]. *)
Definition toy_parse (argv : list String.string)
  : Parser.parsed unit :=
  Parser.parse (list String.string) unit
    (fun variables words => inr (variables ++ words))
    (fun variables _ => inr variables)
    (fun variables name => existsb (String.eqb name) variables)
    (fun variables _ => inr (true, variables))
    (fun _ c => (None, Parser.mk_configuration unit toy_path (Parser.others unit c)))
    (fun what => what)
    toy_config toy_help toy_settings toy_version toy_prefix
    []
    argv (Parser.mk_configuration unit String.EmptyString tt).

End MoreExamples.

(** * Properties *)

(** ** The header slot table *)

Module HeaderListFacts.

Import HeaderList Examples.

Section WithHash.

Variable header_hash : header -> hash_digest.

Local Abbreviation linked_from := (linked_from header_hash).
Local Abbreviation linked := (linked header_hash).
Local Abbreviation merge_loop := (merge_loop header_hash).
Local Abbreviation hl_merge := (hl_merge header_hash).
Local Abbreviation hl_complete := (hl_complete header_hash).
Local Abbreviation hl_previous_hash := (hl_previous_hash header_hash).

Lemma last_cons_default {A : Type} (x d : A) (l : list A) :
  last (x :: l) d = last l x.
Proof.
  revert x d. induction l as [|y l IH]; intros x d; [reflexivity|].
  change (last (x :: y :: l) d) with (last (y :: l) d).
  rewrite (IH y d). symmetry. apply IH.
Qed.

Lemma linked_from_app (prev : hash_digest) (hs : list header) (h : header) :
  linked_from prev hs ->
  previous_block_hash h = last (map header_hash hs) prev ->
  linked_from prev (hs ++ [h]).
Proof.
  revert prev.
  induction hs as [|x hs IH]; intros prev Hl Hp.
  - simpl in *. auto.
  - destruct Hl as [Hx Hrest].
    split; [exact Hx|].
    apply IH; [exact Hrest|].
    rewrite Hp. apply last_cons_default.
Qed.

Lemma previous_hash_push (t : header_list) (h : header) :
  hl_previous_hash (push t h) = header_hash h.
Proof.
  unfold HeaderList.hl_previous_hash, push. cbn [slots hl_first_hash].
  rewrite map_app. cbn [map]. apply last_last.
Qed.

Lemma merge_loop_appends (batch : list header) :
  forall t t',
    merge_loop t batch = Some t' ->
    exists pre post,
      batch = pre ++ post /\
      slots t' = slots t ++ pre /\
      same_anchors t t' /\
      linked_from (hl_previous_hash t) pre /\
      (post = [] \/ hl_complete t' = true) /\
      (linked t -> linked t') /\
      (within_capacity t -> within_capacity t').
Proof.
  induction batch as [|h rest IH]; intros t t' H.
  - injection H as <-.
    exists [], []. rewrite (app_nil_r (slots t)).
    unfold same_anchors. cbn. repeat split; auto.
  - cbn [HeaderList.merge_loop] in H.
    destruct (Z.eqb_spec (previous_block_hash h) (hl_previous_hash t))
      as [Hlink|]; [|discriminate].
    cbn [negb] in H.
    destruct (hl_complete t) eqn:Hfull.
    { injection H as <-.
      exists [], (h :: rest). rewrite (app_nil_r (slots t)).
      unfold same_anchors. cbn. repeat split; auto. }
    destruct (Nat.leb_spec (hl_capacity t) (length (slots t))) as [|Hroom];
      [discriminate|].
    assert (Hl1 : linked t -> linked (push t h)).
    { intro Ht. unfold HeaderList.linked. cbn.
      apply linked_from_app; assumption. }
    assert (Hc1 : within_capacity (push t h)).
    { unfold within_capacity. cbn. rewrite length_app. cbn. lia. }
    destruct (hl_complete (push t h)) eqn:Hdone.
    + injection H as <-.
      exists [h], rest. unfold same_anchors. cbn.
      repeat split; auto.
    + destruct (IH _ _ H) as (pre & post & Hb & Hs & Ha & Hp & Hd & Hl & Hc).
      exists (h :: pre), post.
      split; [cbn; congruence|].
      split; [rewrite Hs; cbn; rewrite <- app_assoc; reflexivity|].
      split; [exact Ha|].
      split; [split; [exact Hlink
                     | rewrite <- (previous_hash_push t h); exact Hp]|].
      split; [exact Hd|].
      split; [intro Ht; apply Hl, Hl1, Ht | intros _; apply Hc, Hc1].
Qed.

Lemma merge_loop_accepts (batch : list header) :
  forall t,
    linked_from (hl_previous_hash t) batch ->
    (length (slots t) + length batch <= hl_capacity t)%nat ->
    exists t', merge_loop t batch = Some t'.
Proof.
  induction batch as [|h rest IH]; intros t Hl Hc.
  - exists t. reflexivity.
  - destruct Hl as [Hh Hrest]. cbn [HeaderList.merge_loop length] in *.
    rewrite Hh, Z.eqb_refl. cbn [negb].
    destruct (hl_complete t); [eexists; reflexivity|].
    destruct (Nat.leb_spec (hl_capacity t) (length (slots t))) as [|Hroom];
      [lia|].
    destruct (hl_complete (push t h)); [eexists; reflexivity|].
    apply IH.
    + rewrite previous_hash_push. exact Hrest.
    + cbn. rewrite length_app. cbn. lia.
Qed.

(** C2 (as amended): a merge that returns false resets the list: no slot
    is left and the anchors are kept, so the slots are as before only if
    there were none.  A merge that returns true appends the headers of the
    batch in order, each linking to the one before it, up to the end of
    the batch or to the header whose hash is the stop hash, and keeps the
    anchors and the linkage and capacity invariants.  A batch that links
    to [previous_hash()] and fits the capacity does merge. *)
Theorem merge_appends_or_resets (t : header_list) (batch : list header) :
  (fst (hl_merge t batch) = false ->
   slots (snd (hl_merge t batch)) = [] /\
   same_anchors t (snd (hl_merge t batch))) /\
  (fst (hl_merge t batch) = true ->
   exists pre post,
     batch = pre ++ post /\
     slots (snd (hl_merge t batch)) = slots t ++ pre /\
     same_anchors t (snd (hl_merge t batch)) /\
     linked_from (hl_previous_hash t) pre /\
     (post = [] \/ hl_complete (snd (hl_merge t batch)) = true) /\
     (linked t -> linked (snd (hl_merge t batch))) /\
     (within_capacity t -> within_capacity (snd (hl_merge t batch)))) /\
  (linked_from (hl_previous_hash t) batch ->
   (length (slots t) + length batch <= hl_capacity t)%nat ->
   fst (hl_merge t batch) = true).
Proof.
  unfold HeaderList.hl_merge.
  split; [|split].
  - destruct (merge_loop t batch); cbn; intro H; [discriminate|].
    unfold same_anchors. cbn. auto.
  - destruct (merge_loop t batch) as [t'|] eqn:E; cbn; intro H;
      [|discriminate].
    exact (merge_loop_appends batch t t' E).
  - intros Hl Hc. destruct (merge_loop_accepts batch t Hl Hc) as [t' ->].
    reflexivity.
Qed.

End WithHash.

(** C2 (as stated) fails: a list that holds one header and is offered a
    batch that does not link to it returns false and loses its slot. *)
Lemma failed_merge_changes_slots :
  slots (snd (hl_merge toy_hash toy_table [toy_header 16 17]))
  = [toy_header 16 17] /\
  fst (hl_merge toy_hash
         (snd (hl_merge toy_hash toy_table [toy_header 16 17])) bad_batch)
  = false /\
  slots (snd (hl_merge toy_hash
                (snd (hl_merge toy_hash toy_table [toy_header 16 17]))
                bad_batch))
  <> slots (snd (hl_merge toy_hash toy_table [toy_header 16 17])).
Proof.
  split; [reflexivity|]. split; [reflexivity|].
  vm_compute. discriminate.
Qed.

Lemma merge_appends_or_resets_witness :
  fst (hl_merge toy_hash (snd (hl_merge toy_hash toy_table [toy_header 16 17]))
         bad_batch) = false /\
  slots (snd (hl_merge toy_hash
                (snd (hl_merge toy_hash toy_table [toy_header 16 17]))
                bad_batch)) = [] /\
  fst (hl_merge toy_hash toy_table good_batch) = true.
Proof.
  split; [reflexivity|]. split.
  - exact (proj1 (proj1 (merge_appends_or_resets toy_hash
                           (snd (hl_merge toy_hash toy_table
                                   [toy_header 16 17])) bad_batch)
                    eq_refl)).
  - apply (proj2 (proj2 (merge_appends_or_resets toy_hash toy_table
                           good_batch))).
    + cbn. repeat split; reflexivity.
    + cbn. lia.
Defined.

(** The same valid batch offered twice: the second merge fails, because
    [previous_hash()] has advanced. *)
Example second_merge_of_the_same_batch_fails :
  fst (hl_merge toy_hash (snd (hl_merge toy_hash toy_table good_batch))
         good_batch) = false.
Proof. reflexivity. Qed.

(** A list that is complete still refuses a batch that does not link. *)
Example complete_list_rejects_non_linking_batch :
  hl_complete toy_hash (snd (hl_merge toy_hash toy_table good_batch)) = true /\
  fst (hl_merge toy_hash (snd (hl_merge toy_hash toy_table good_batch))
         bad_batch) = false.
Proof. split; reflexivity. Qed.

Example scenario_a_clean_sync :
  hl_merge toy_hash toy_table good_batch
  = (true, mk_header_list 0 16 19 3 good_batch) /\
  hl_complete toy_hash (snd (hl_merge toy_hash toy_table good_batch)) = true.
Proof. split; reflexivity. Qed.

Example scenario_b_non_linking_batch :
  hl_merge toy_hash toy_table bad_batch = (false, toy_table).
Proof. reflexivity. Qed.

End HeaderListFacts.

(** ** The header-sync protocol *)

Module ProtocolHeaderSyncFacts.

Import ProtocolHeaderSync.

(** Unfolds the monadic plumbing, leaving the record updates in place. *)
Ltac unfold_m :=
  cbv beta iota zeta delta
    [bind ret gets modify emit stopped stop synchronize barrier
     headers_complete user_handler send_get_headers M event_handler] in *.

Section WithHeaderList.

Context {L : Type} {ops : Headers.header_list_ops L}.

Local Abbreviation state := (protocol_header_sync L).

Lemma barrier_forwards_first (ec : code) (p : state) :
  cleared_ p = false -> barrier ec p = (tt, completed ec p).
Proof. intro H. unfold_m. rewrite H. reflexivity. Qed.

Lemma barrier_discards_rest (ec : code) (p : state) :
  cleared_ p = true -> barrier ec p = (tt, p).
Proof. intro H. unfold_m. rewrite H. reflexivity. Qed.

(** *** [handle_receive_headers] by cases *)

Lemma handle_receive_headers_by_cases (ec : code) (message : list header)
  (complete : event_handler) (p : state) :
  handle_receive_headers ec message complete p
  = receive_headers_by_cases ec message complete p.
Proof.
  unfold handle_receive_headers, receive_headers_by_cases.
  unfold_m.
  destruct (stopped_ p) eqn:Hs; [reflexivity|].
  destruct (is_error ec).
  { destruct (complete ec p) as [[] q]. reflexivity. }
  destruct (Headers.merge (headers_ p) message) as [merged l'].
  cbn [fst snd].
  destruct merged; cbn [negb].
  - destruct (Headers.complete l').
    { destruct (complete success _) as [[] q]. reflexivity. }
    destruct (length message <? max_get_headers)%nat.
    { destruct (complete operation_failed _) as [[] q]. reflexivity. }
    cbn. rewrite Hs. reflexivity.
  - destruct (complete invalid_previous_block _) as [[] q]. reflexivity.
Qed.

(** *** Delivery of [headers] *)

(** C5: [handle_receive_headers] follows the five-case table; it returns
    true exactly when the channel is not stopped, there is no error code,
    the merge succeeds, the list is not complete and the batch holds at
    least 2000 headers; in that case all it does besides the merge is to
    send the next [get_headers]. *)
Theorem handle_receive_headers_keeps_subscription_iff (ec : code)
  (message : list header) (complete : event_handler) (p : state) :
  handle_receive_headers ec message complete p
  = receive_headers_by_cases ec message complete p /\
  (fst (handle_receive_headers ec message complete p) = true <->
   stopped_ p = false /\
   is_error ec = false /\
   fst (Headers.merge (headers_ p) message) = true /\
   Headers.complete (snd (Headers.merge (headers_ p) message)) = false /\
   (max_get_headers <= length message)%nat) /\
  (fst (handle_receive_headers ec message complete p) = true ->
   snd (handle_receive_headers ec message complete p)
   = record
       (send_get_headers_request
          [Headers.previous_hash (snd (Headers.merge (headers_ p) message))]
          (Headers.stop_hash (snd (Headers.merge (headers_ p) message))))
       (set_headers (snd (Headers.merge (headers_ p) message)) p)).
Proof.
  split; [apply handle_receive_headers_by_cases|].
  rewrite handle_receive_headers_by_cases.
  unfold receive_headers_by_cases.
  destruct (stopped_ p); [cbn; intuition discriminate|].
  destruct (is_error ec); [cbn; intuition discriminate|].
  destruct (fst (Headers.merge (headers_ p) message));
    [|cbn; intuition discriminate].
  cbn [negb].
  destruct (Headers.complete _); [cbn; intuition discriminate|].
  destruct (Nat.ltb_spec (length message) max_get_headers) as [Hlt|Hge].
  - cbn. split; [|discriminate].
    split; [discriminate|]. intros (_ & _ & _ & _ & Hle). lia.
  - cbn. intuition.
Qed.

(** C4: a [headers] message taken while the channel is not stopped and
    without error code, whose merge succeeds without completing the list
    and which holds fewer than 2000 headers, makes the handler call
    [complete(operation_failed)] and return false; through the open
    barrier this invokes the user's handler with [operation_failed] and
    stops the channel. *)
Theorem short_batch_signals_operation_failed (ec : code)
  (message : list header) (complete : event_handler) (p : state) :
  stopped_ p = false ->
  is_error ec = false ->
  fst (Headers.merge (headers_ p) message) = true ->
  Headers.complete (snd (Headers.merge (headers_ p) message)) = false ->
  (length message < max_get_headers)%nat ->
  handle_receive_headers ec message complete p
  = (false,
     snd (complete operation_failed
            (set_headers (snd (Headers.merge (headers_ p) message)) p))) /\
  (cleared_ p = false ->
   handle_receive_headers ec message barrier p
   = (false,
      completed operation_failed
        (set_headers (snd (Headers.merge (headers_ p) message)) p))).
Proof.
  intros Hs He Hm Hc Hlt.
  assert (Hcase : forall k : event_handler,
    handle_receive_headers ec message k p
    = (false,
       snd (k operation_failed
              (set_headers (snd (Headers.merge (headers_ p) message)) p)))).
  { intro k. rewrite handle_receive_headers_by_cases.
    unfold receive_headers_by_cases.
    rewrite Hs, He, Hm, Hc. cbn [negb].
    apply Nat.ltb_lt in Hlt. rewrite Hlt. reflexivity. }
  split; [apply Hcase|].
  intro Hopen. rewrite Hcase.
  rewrite barrier_forwards_first by exact Hopen. reflexivity.
Qed.

(** *** The rate timer *)

(** A timer event that is neither [channel_stopped] nor another error —
    the normal tick [channel_timeout] among them — advances
    [current_second_] by the interval and completes with [channel_timeout]
    when the recomputed rate is below the minimum. *)
Lemma handle_event_tick (ec : code) (complete : event_handler) (p : state) :
  code_eqb ec channel_stopped = false ->
  is_error ec && negb (code_eqb ec channel_timeout) = false ->
  handle_event ec complete p
  = let p' :=
      set_current_second (to_size (current_second_ p + expiry_interval)) p in
    if sync_rate p' <? minimum_rate_ p
    then complete channel_timeout p'
    else (tt, p').
Proof.
  intros H1 H2. unfold handle_event. rewrite H1, H2.
  unfold bind, gets, modify, ret. cbv zeta.
  change (minimum_rate_ (set_current_second _ p)) with (minimum_rate_ p).
  destruct (_ <? _); reflexivity.
Qed.

Lemma handle_event_error (ec : code) (complete : event_handler) (p : state) :
  code_eqb ec channel_stopped
  || (is_error ec && negb (code_eqb ec channel_timeout)) = true ->
  handle_event ec complete p = complete ec p.
Proof.
  unfold handle_event. intro H.
  destruct (code_eqb ec channel_stopped); [reflexivity|].
  cbn in H. rewrite H. reflexivity.
Qed.

(** The difference the rate divides: with the list as it was at
    construction it is the first height, not zero. *)
Lemma rate_numerator_at_construction (s : bool) (l : L) (minimum now : Z) :
  is_size (Headers.first_height l) ->
  sync_rate (set_current_second now (construct s l minimum))
  = Headers.first_height l / now.
Proof.
  intro Hf. unfold sync_rate, construct, to_size. cbn.
  rewrite Zminus_mod_idemp_r.
  replace (Headers.previous_height l
           - (Headers.previous_height l - Headers.first_height l))
    with (Headers.first_height l) by lia.
  rewrite Z.mod_small by exact Hf. reflexivity.
Qed.

(** *** One handler invocation per run *)

Lemma completions_app (tr tr' : list action) :
  completions (tr ++ tr') = completions tr ++ completions tr'.
Proof. apply filter_app. Qed.

Lemma advances_refl (p q : state) :
  cleared_ q = cleared_ p -> trace_ q = trace_ p -> advances p q.
Proof. intros Hc Ht. left. rewrite Ht. auto. Qed.

Lemma barrier_advances (ec : code) (p : state) :
  advances p (snd (barrier ec p)).
Proof.
  destruct (cleared_ p) eqn:Hc.
  - rewrite barrier_discards_rest by exact Hc. left. auto.
  - rewrite barrier_forwards_first by exact Hc.
    right. split; [exact Hc|]. split; [reflexivity|].
    exists ec. cbn [completed set_stopped record trace_ set_cleared snd].
    rewrite <- app_assoc, completions_app. reflexivity.
Qed.

Lemma handle_receive_headers_advances (ec : code) (message : list header)
  (p : state) :
  advances p (snd (handle_receive_headers ec message barrier p)).
Proof.
  rewrite handle_receive_headers_by_cases. unfold receive_headers_by_cases.
  destruct (stopped_ p); [left; auto|].
  destruct (is_error ec); [apply barrier_advances|].
  cbv zeta.
  destruct (negb _);
    [exact (barrier_advances invalid_previous_block (set_headers _ p))|].
  destruct (Headers.complete _);
    [exact (barrier_advances success (set_headers _ p))|].
  destruct (_ <? _)%nat;
    [exact (barrier_advances operation_failed (set_headers _ p))|].
  left. cbn. rewrite completions_app, app_nil_r. auto.
Qed.

Lemma handle_event_advances (ec : code) (p : state) :
  advances p (snd (handle_event ec barrier p)).
Proof.
  destruct (code_eqb ec channel_stopped
            || (is_error ec && negb (code_eqb ec channel_timeout))) eqn:E.
  - rewrite handle_event_error by exact E. apply barrier_advances.
  - apply orb_false_elim in E. destruct E as [E1 E2].
    rewrite handle_event_tick by assumption. cbv zeta.
    destruct (_ <? _); [|left; auto].
    exact (barrier_advances channel_timeout (set_current_second _ p)).
Qed.

Lemma handle_send_advances (ec : code) (p : state) :
  advances p (snd (handle_send ec barrier p)).
Proof.
  unfold handle_send, stopped, gets, bind.
  destruct (stopped_ p); [left; auto|].
  destruct (is_error ec); [apply barrier_advances|left; auto].
Qed.

Lemma deliver_advances (e : event) (p : state) :
  advances p (snd (deliver e p)).
Proof.
  destruct e as [ec message|ec|ec|]; cbn [deliver].
  - unfold bind, ret.
    pose proof (handle_receive_headers_advances ec message p) as H.
    destruct (handle_receive_headers ec message barrier p). exact H.
  - apply handle_event_advances.
  - apply handle_send_advances.
  - left. auto.
Qed.

Lemma advances_keeps_once (p q : state) :
  advances p q -> completed_once p -> completed_once q.
Proof.
  unfold completed_once.
  intros [[Hc Ht]|(Hp & Hq & ec & Ht)] H.
  - rewrite Hc, Ht. exact H.
  - rewrite Hp in H. rewrite Hq, Ht, H. exists ec. reflexivity.
Qed.

Lemma advances_stays_closed (p q : state) :
  advances p q -> cleared_ p = true ->
  cleared_ q = true /\ completions (trace_ q) = completions (trace_ p).
Proof.
  intros [[Hc Ht]|(Hp & _)] H.
  - rewrite Hc. auto.
  - congruence.
Qed.

Lemma deliver_all_keeps_once (es : list event) :
  forall p : state, completed_once p -> completed_once (deliver_all es p).
Proof.
  induction es as [|e es IH]; intros p H; [exact H|].
  cbn [deliver_all]. apply IH.
  exact (advances_keeps_once _ _ (deliver_advances e p) H).
Qed.

Lemma deliver_all_stays_closed (es : list event) :
  forall p : state,
    cleared_ p = true ->
    cleared_ (deliver_all es p) = true /\
    completions (trace_ (deliver_all es p)) = completions (trace_ p).
Proof.
  induction es as [|e es IH]; intros p H; [auto|].
  cbn [deliver_all].
  destruct (advances_stays_closed _ _ (deliver_advances e p) H) as [Hc Ht].
  destruct (IH _ Hc) as [Hc' Ht'].
  split; [exact Hc'|congruence].
Qed.

Lemma deliver_all_app (es more : list event) (p : state) :
  deliver_all (es ++ more) p = deliver_all more (deliver_all es p).
Proof.
  revert p. induction es as [|e es IH]; intro p; [reflexivity|].
  cbn [deliver_all app]. apply IH.
Qed.

Lemma channel_stop_event_closes (p : state) :
  cleared_ (snd (deliver (timer_fired channel_stopped) p)) = true.
Proof.
  cbn [deliver]. rewrite handle_event_error by reflexivity.
  destruct (cleared_ p) eqn:Hc.
  - rewrite barrier_discards_rest by exact Hc. exact Hc.
  - rewrite barrier_forwards_first by exact Hc. reflexivity.
Qed.

Lemma deliver_all_closes (es : list event) :
  forall p : state,
    In (timer_fired channel_stopped) es ->
    cleared_ (deliver_all es p) = true.
Proof.
  induction es as [|e es IH]; intros p Hin; [destruct Hin|].
  destruct Hin as [He|Hin].
  - subst e. cbn [deliver_all].
    apply deliver_all_stays_closed, channel_stop_event_closes.
  - cbn [deliver_all]. apply IH, Hin.
Qed.

Lemma start_leaves_barrier_open (s : bool) (l : L) (minimum : Z) :
  completed_once (snd (start user_handler (construct s l minimum))).
Proof.
  unfold completed_once, start, construct. unfold_m.
  destruct s; reflexivity.
Qed.

Lemma handler_calls_completions (tr : list action) :
  handler_calls (completions tr) = handler_calls tr.
Proof.
  unfold completions.
  induction tr as [|a tr IH]; [reflexivity|].
  destruct a; cbn; rewrite ?IH; reflexivity.
Qed.

End WithHeaderList.

(** *** Concrete runs *)

Import HeaderList Examples.

(** C1: at first height 100 with no header delivered since construction,
    the first tick leaves the list as it was, sets [current_second_] to 5
    and computes the rate 100 / 5 = 20, not 0; with minimum rate 10 the
    barrier stays open and the handler is not invoked. *)
Theorem idle_peer_at_height_100_is_not_timed_out :
  headers_ idle_at_100 = table_at_100 /\
  start_size_ idle_at_100 = size_modulus - 1 /\
  current_second_ idle_at_100 = 5 /\
  sync_rate idle_at_100 = 20 /\
  minimum_rate_ idle_at_100 = 10 /\
  cleared_ idle_at_100 = false /\
  handler_calls (trace_ idle_at_100) = [].
Proof. vm_compute. repeat split; reflexivity. Qed.

(** Scenario C of the design: the same idle peer at first height 0 is
    timed out by the first tick. *)
Example idle_peer_at_height_0_is_timed_out :
  sync_rate idle_at_0 = 0 /\
  trace_ idle_at_0
  = [start_timer 5; subscribe_headers; send_get_headers_request [16] 19;
     invoke_handler channel_timeout; stop_channel channel_stopped].
Proof. vm_compute. split; reflexivity. Qed.

Lemma short_batch_signals_operation_failed_witness :
  stopped_ started = false /\
  (length [toy_header 16 17] < max_get_headers)%nat /\
  handle_receive_headers success [toy_header 16 17] barrier started
  = (false,
     completed operation_failed
       (set_headers
          (snd (Headers.merge (headers_ started) [toy_header 16 17]))
          started)) /\
  slots (snd (Headers.merge (headers_ started) [toy_header 16 17]))
  = [toy_header 16 17].
Proof.
  split; [reflexivity|].
  split; [apply Nat.ltb_lt; reflexivity|].
  split; [|reflexivity].
  refine (proj2 (short_batch_signals_operation_failed success
                   [toy_header 16 17] barrier started _ _ _ _ _) _);
    try (vm_compute; reflexivity).
  apply Nat.ltb_lt. reflexivity.
Defined.

Lemma handle_receive_headers_keeps_subscription_iff_witness :
  fst (handle_receive_headers success (chain_from 16 2000) barrier
         (run false table_at_100 10 [])) = true.
Proof.
  apply (proj1 (proj2 (handle_receive_headers_keeps_subscription_iff success
                         (chain_from 16 2000) barrier
                         (run false table_at_100 10 [])))).
  split; [reflexivity|].
  split; [reflexivity|].
  split; [vm_compute; reflexivity|].
  split; [vm_compute; reflexivity|].
  apply Nat.leb_le. vm_compute. reflexivity.
Defined.

End ProtocolHeaderSyncFacts.

(** ** The session *)

Module SessionFacts.

Import Session Examples.

Local Open Scope session_scope.

Section WithCollaborators.

Variable assertions : bool.
Variable hash_block_header : block_header_type -> hash_digest.
Variable tx_pool : hash_digest -> bool.

Local Abbreviation block_vector :=
  (fun b : block_type =>
     mk_inventory_vector block (hash_block_header (header b))).

Lemma push_back_loop (new_blocks : list block_type) :
  forall acc,
    fold_left (fun inv b => push_back inv (block_vector b)) new_blocks
      (mk_inventory acc)
    = mk_inventory (acc ++ map block_vector new_blocks).
Proof.
  induction new_blocks as [|b bs IH]; intro acc; cbn [fold_left map].
  - rewrite app_nil_r. reflexivity.
  - unfold push_back at 2. cbn [inventories].
    rewrite IH, <- app_assoc. reflexivity.
Qed.

Lemma blocks_inventory_in_chain_order (new_blocks : list block_type) :
  blocks_inventory_of hash_block_header new_blocks
  = mk_inventory (map block_vector new_blocks).
Proof. apply (push_back_loop new_blocks []). Qed.

Lemma height_fits (fork_point : Z) (new_blocks : list block_type) :
  is_uint32 fork_point ->
  fork_point + Z.of_nat (length new_blocks) <= max_uint32 ->
  (Z.of_nat (length new_blocks) <=? to_uint32 (max_uint32 - fork_point)) = true
  /\ to_uint32 (to_size (fork_point + Z.of_nat (length new_blocks)))
     = fork_point + Z.of_nat (length new_blocks).
Proof.
  unfold is_uint32, to_uint32, to_size, size_modulus, size_bits, max_uint32.
  change (2 ^ 32) with 4294967296.
  change (2 ^ 64) with 18446744073709551616.
  intros Hf Hsum.
  assert (0 <= Z.of_nat (length new_blocks)) by lia.
  split.
  - apply Z.leb_le. rewrite Z.mod_small; lia.
  - rewrite (Z.mod_small _ 18446744073709551616) by lia.
    apply Z.mod_small. lia.
Qed.

(** C6 (as amended): a reorganization without error whose new height
    [fork_point + len(new_blocks)] stays within [max_uint32], which is
    what the code asserts, makes the session push that height to the
    handshake layer, subscribe for the next reorganization and broadcast
    one inventory holding a block vector with the header hash of each new
    block, in chain order. *)
Theorem reorganization_is_announced (fork_point : Z)
  (new_blocks replaced_blocks : list block_type) :
  is_uint32 fork_point ->
  fork_point + Z.of_nat (length new_blocks) <= max_uint32 ->
  set_start_height assertions hash_block_header success fork_point
    new_blocks replaced_blocks
  = ([handshake_set_start_height (fork_point + Z.of_nat (length new_blocks));
      chain_subscribe_reorganize;
      protocol_broadcast (mk_inventory (map block_vector new_blocks))],
     Some tt).
Proof.
  intros Hf Hsum.
  destruct (height_fits fork_point new_blocks Hf Hsum) as [Hassert Hheight].
  unfold set_start_height, BITCOIN_ASSERT. cbn [is_error code_eqb negb].
  rewrite Hassert, Hheight, blocks_inventory_in_chain_order.
  rewrite andb_false_r. reflexivity.
Qed.

(** C7 (as amended): a reorganization without error and without new
    blocks still makes the session call [broadcast] once, with an
    inventory that holds no vectors, after pushing the height and
    subscribing again. *)
Theorem empty_reorganization_broadcasts_empty_inventory (fork_point : Z)
  (replaced_blocks : list block_type) :
  set_start_height assertions hash_block_header success fork_point []
    replaced_blocks
  = ([handshake_set_start_height (to_uint32 (to_size (fork_point + 0)));
      chain_subscribe_reorganize;
      protocol_broadcast (mk_inventory [])],
     Some tt) /\
  filter is_broadcast
    (fst (set_start_height assertions hash_block_header success fork_point []
            replaced_blocks))
  = [protocol_broadcast (mk_inventory [])].
Proof.
  assert (E : set_start_height assertions hash_block_header success fork_point
                [] replaced_blocks
              = ([handshake_set_start_height
                    (to_uint32 (to_size (fork_point + 0)));
                  chain_subscribe_reorganize;
                  protocol_broadcast (mk_inventory [])],
                 Some tt)).
  { unfold set_start_height, BITCOIN_ASSERT. cbn [is_error code_eqb negb length].
    assert (H : (Z.of_nat 0 <=? to_uint32 (max_uint32 - fork_point)) = true).
    { apply Z.leb_le. unfold to_uint32.
      pose proof (Z.mod_pos_bound (max_uint32 - fork_point) (2 ^ 32)). lia. }
    rewrite H, andb_false_r. reflexivity. }
  split; [exact E|]. rewrite E. reflexivity.
Qed.

(** C9: a [new_tx_inventory(hash, channel)] task asks the pool whether the
    hash exists and, exactly when the answer is no, sends on that channel
    one [get_data] holding the single vector [{transaction, hash}]. *)
Theorem new_tx_inventory_requests_unknown_transaction
  (tx_hash : hash_digest) (node : channel) :
  new_tx_inventory assertions tx_pool tx_hash (Some node)
  = (tx_pool_exists tx_hash
     :: (if tx_pool tx_hash then []
         else [node_send node
                 (mk_inventory [mk_inventory_vector transaction tx_hash])]),
     Some tt) /\
  (forall (c : channel) (packet : get_data_type),
     In (node_send c packet)
       (fst (new_tx_inventory assertions tx_pool tx_hash (Some node))) <->
     tx_pool tx_hash = false /\ c = node /\
     packet = mk_inventory [mk_inventory_vector transaction tx_hash]).
Proof.
  assert (E : new_tx_inventory assertions tx_pool tx_hash (Some node)
    = (tx_pool_exists tx_hash
       :: (if tx_pool tx_hash then []
           else [node_send node
                   (mk_inventory [mk_inventory_vector transaction tx_hash])]),
       Some tt)).
  { unfold new_tx_inventory, request_tx_data, BITCOIN_ASSERT.
    destruct (tx_pool tx_hash); [reflexivity|].
    rewrite andb_false_r. reflexivity. }
  split; [exact E|].
  intros c packet. rewrite E. cbn [fst].
  destruct (tx_pool tx_hash); cbn [In].
  - split; [intros [H|[]]; discriminate H | intros [H _]; discriminate H].
  - split.
    + intros [H|[H|[]]]; [discriminate H|].
      injection H as <- <-. auto.
    + intros (_ & -> & ->). right. left. reflexivity.
Qed.

(** *** The new-channel subscription *)

Lemma notify_all_unsubscribed (ns : list (code * channel_ptr)) :
  forall s, subscribed s = false -> notify_all assertions s ns = s.
Proof.
  unfold notify_all.
  induction ns as [|n ns IH]; intros s H; [reflexivity|].
  cbn [fold_left].
  assert (E : notify assertions s n = s).
  { unfold notify. rewrite H. destruct (crashed s); reflexivity. }
  rewrite E. apply IH, H.
Qed.

(** C10: a [new_channel] notification with an error code only logs; it
    subscribes to nothing, the new-channel subscription included, so that
    the session handles none of the notifications that follow. *)
Theorem failed_new_channel_ends_subscription (ec : code) (node : channel_ptr)
  (later : list (code * channel_ptr)) (s : subscription) :
  is_error ec = true ->
  subscribed s = true ->
  crashed s = false ->
  new_channel assertions ec node
  = ([log_error establish_channel node ec], Some tt) /\
  notify_all assertions s ((ec, node) :: later)
  = mk_subscription false (S (handled s))
      (performed s ++ [log_error establish_channel node ec]) false.
Proof.
  intros Hec Hsub Hok.
  assert (E : new_channel assertions ec node
              = ([log_error establish_channel node ec], Some tt)).
  { unfold new_channel. rewrite Hec. reflexivity. }
  split; [exact E|].
  unfold notify_all. cbn [fold_left].
  assert (N : notify assertions s (ec, node)
              = mk_subscription false (S (handled s))
                  (performed s ++ [log_error establish_channel node ec])
                  false).
  { unfold notify. rewrite Hok, Hsub. cbn [fst snd]. rewrite E. reflexivity. }
  rewrite N. apply notify_all_unsubscribed. reflexivity.
Qed.

End WithCollaborators.

(** *** Concrete events *)

Lemma reorganization_is_announced_witness :
  is_uint32 100 /\
  set_start_height true toy_hash success 100 [block_101; block_102] []
  = ([handshake_set_start_height 102;
      chain_subscribe_reorganize;
      protocol_broadcast
        (mk_inventory [mk_inventory_vector block 101;
                       mk_inventory_vector block 102])],
     Some tt).
Proof.
  split; [unfold is_uint32, max_uint32; lia|].
  apply (reorganization_is_announced true toy_hash 100
           [block_101; block_102] []).
  - unfold is_uint32, max_uint32. lia.
  - unfold max_uint32. cbn. lia.
Defined.

(** C6 (as stated) fails: at fork point [max_uint32] with one new block
    the height [max_uint32 + 1] is not pushed; the build with assertions
    stops at the assertion, the build without pushes 0. *)
Lemma reorganization_height_overflows :
  is_uint32 4294967295 /\
  ~ In (handshake_set_start_height (4294967295 + Z.of_nat (length [block_101])))
      (fst (set_start_height true toy_hash success 4294967295 [block_101] []))
  /\
  ~ In (handshake_set_start_height (4294967295 + Z.of_nat (length [block_101])))
      (fst (set_start_height false toy_hash success 4294967295 [block_101] []))
  /\
  set_start_height true toy_hash success 4294967295 [block_101] []
  = ([], None) /\
  fst (set_start_height false toy_hash success 4294967295 [block_101] [])
  = [handshake_set_start_height 0;
     chain_subscribe_reorganize;
     protocol_broadcast (mk_inventory [mk_inventory_vector block 101])].
Proof.
  split; [unfold is_uint32, max_uint32; lia|].
  split; [vm_compute; intros []|].
  split; [|split; vm_compute; reflexivity].
  vm_compute. intros [H|[H|[H|[]]]]; discriminate H.
Qed.

(** C7 (as stated) fails: with no new blocks a broadcast is still made. *)
Lemma empty_reorganization_still_broadcasts :
  filter is_broadcast (fst (set_start_height true toy_hash success 100 [] []))
  <> [] /\
  In (protocol_broadcast (mk_inventory []))
    (fst (set_start_height true toy_hash success 100 [] [])).
Proof.
  split.
  - vm_compute. discriminate.
  - vm_compute. auto.
Qed.

Lemma failed_new_channel_ends_subscription_witness :
  subscribed after_start = true /\
  notify_all true after_start
    [(other_error 1, None); (success, Some 7); (success, Some 8)]
  = mk_subscription false 1
      [log_error establish_channel None (other_error 1)] false.
Proof.
  split; [reflexivity|].
  exact (proj2 (failed_new_channel_ends_subscription true (other_error 1) None
                  [(success, Some 7); (success, Some 8)] after_start
                  eq_refl eq_refl eq_refl)).
Defined.

(** Scenario F of the design: the second announcement of a transaction
    finds it in the pool and requests nothing. *)
Example known_transaction_is_not_requested :
  new_tx_inventory true (fun _ => true) 42 (Some 7)
  = ([tx_pool_exists 42], Some tt).
Proof. reflexivity. Qed.

End SessionFacts.

(** ** Runs of the header-sync protocol, continued *)

Module ProtocolHeaderSyncRunFacts.

Import ProtocolHeaderSync ProtocolHeaderSyncRuns ProtocolHeaderSyncFacts.

Section WithHeaderList.

Context {L : Type} {ops : Headers.header_list_ops L}.

Local Abbreviation state := (protocol_header_sync L).

(** *** What one callback leaves behind *)

Lemma barrier_outcome (ec : code) (p : state) :
  snd (barrier ec p) = if cleared_ p then p else completed ec p.
Proof.
  destruct (cleared_ p) eqn:Hc.
  - rewrite barrier_discards_rest by exact Hc. reflexivity.
  - rewrite barrier_forwards_first by exact Hc. reflexivity.
Qed.

Lemma handle_send_outcome (ec : code) (p : state) :
  snd (handle_send ec barrier p)
  = if stopped_ p then p
    else if is_error ec then snd (barrier ec p) else p.
Proof.
  unfold handle_send, stopped, gets, bind, ret.
  destruct (stopped_ p); [reflexivity|].
  destruct (is_error ec); reflexivity.
Qed.

Lemma handle_event_outcome (ec : code) (p : state) :
  snd (handle_event ec barrier p)
  = if ends_timer ec then snd (barrier ec p)
    else if sync_rate
              (set_current_second
                 (to_size (current_second_ p + expiry_interval)) p)
            <? minimum_rate_ p
         then snd (barrier channel_timeout
                     (set_current_second
                        (to_size (current_second_ p + expiry_interval)) p))
         else set_current_second
                (to_size (current_second_ p + expiry_interval)) p.
Proof.
  unfold ends_timer.
  destruct (code_eqb ec channel_stopped
            || (is_error ec && negb (code_eqb ec channel_timeout))) eqn:E.
  - rewrite handle_event_error by exact E. reflexivity.
  - apply orb_false_elim in E. destruct E as [E1 E2].
    rewrite handle_event_tick by assumption. cbv zeta.
    destruct (_ <? _); reflexivity.
Qed.

Lemma deliver_headers_outcome (ec : code) (message : list header) (p : state) :
  snd (deliver (headers_received ec message) p)
  = snd (receive_headers_by_cases ec message barrier p).
Proof.
  cbn [deliver]. unfold bind, ret.
  rewrite handle_receive_headers_by_cases.
  destruct (receive_headers_by_cases ec message barrier p). reflexivity.
Qed.

(** Splits a goal about [snd (deliver e p)] into the branches of the
    handler that [e] reaches. *)
Ltac by_handler e :=
  destruct e as [?ec ?message|?ec|?ec|];
  rewrite ?deliver_headers_outcome; cbn [deliver];
  rewrite ?handle_event_outcome, ?handle_send_outcome;
  unfold receive_headers_by_cases; cbv zeta;
  rewrite ?barrier_outcome;
  cbn [cleared_ stopped_ set_headers set_current_second set_stopped record].

Lemma requests_app (tr tr' : list action) :
  requests (tr ++ tr') = requests tr ++ requests tr'.
Proof. apply filter_app. Qed.

Lemma handler_calls_app (tr tr' : list action) :
  handler_calls (tr ++ tr') = handler_calls tr ++ handler_calls tr'.
Proof.
  induction tr as [|a tr IH]; [reflexivity|].
  destruct a; cbn; rewrite ?IH; reflexivity.
Qed.

Lemma is_error_not_success (ec : code) : is_error ec = true -> ec <> success.
Proof. intros H ->. discriminate H. Qed.

Lemma ends_timer_not_success (ec : code) :
  ends_timer ec = true -> ec <> success.
Proof. intros H ->. discriminate H. Qed.

(** *** After the channel has stopped *)

Lemma deliver_when_stopped (e : event) (p : state) :
  stopped_ p = true ->
  stopped_ (snd (deliver e p)) = true /\
  headers_ (snd (deliver e p)) = headers_ p /\
  requests (trace_ (snd (deliver e p))) = requests (trace_ p).
Proof.
  intro Hs. by_handler e; rewrite ?Hs;
    repeat match goal with
           | |- context [if ?b then _ else _] => destruct b
           end;
    cbn; rewrite ?requests_app, ?app_nil_r; auto.
Qed.

Lemma stopped_channel_is_left_alone_aux (es : list event) :
  forall p : state,
    stopped_ p = true ->
    stopped_ (deliver_all es p) = true /\
    headers_ (deliver_all es p) = headers_ p /\
    requests (trace_ (deliver_all es p)) = requests (trace_ p).
Proof.
  induction es as [|e es IH]; intros p Hs; [auto|].
  cbn [deliver_all].
  destruct (deliver_when_stopped e p Hs) as (Hs' & Hh & Hr).
  destruct (IH _ Hs') as (Hs'' & Hh' & Hr').
  repeat split; congruence.
Qed.

(** X1: once the channel is stopped, whatever callbacks follow, the
    instance never merges into the header list and never sends another
    [get_headers]; the channel stays stopped. *)
Theorem stopped_channel_is_left_alone (es : list event) (p : state) :
  stopped_ p = true ->
  stopped_ (deliver_all es p) = true /\
  headers_ (deliver_all es p) = headers_ p /\
  requests (trace_ (deliver_all es p)) = requests (trace_ p).
Proof. apply stopped_channel_is_left_alone_aux. Qed.

(** *** After completion *)

Lemma deliver_keeps_settled (e : event) (p : state) :
  settled p -> settled (snd (deliver e p)).
Proof.
  unfold settled. intros [Hc Ho].
  destruct (cleared_ p) eqn:C.
  - destruct (Hc eq_refl) as [S K]. clear Hc Ho.
    by_handler e; rewrite ?C, ?S;
      repeat match goal with
             | |- context [if ?b then _ else _] => destruct b
             end;
      cbn; rewrite ?C; (split; [auto | discriminate]).
  - pose proof (Ho eq_refl) as K. clear Hc Ho.
    by_handler e; rewrite ?C;
      repeat match goal with
             | |- context [if ?b then _ else _] => destruct b eqn:?
             end;
      cbn; rewrite ?C, ?handler_calls_app, ?K; cbn;
      (split; [|auto; discriminate]);
      try discriminate;
      intros _; (split; [reflexivity|]);
      intros [E|[]]; try discriminate E; auto;
      subst; discriminate.
Qed.

Lemma deliver_all_keeps_settled (es : list event) :
  forall p : state, settled p -> settled (deliver_all es p).
Proof.
  induction es as [|e es IH]; intros p H; [exact H|].
  cbn [deliver_all]. apply IH, deliver_keeps_settled, H.
Qed.

Lemma start_is_settled (s : bool) (l : L) (minimum : Z) :
  settled (snd (start user_handler (construct s l minimum))).
Proof.
  unfold settled, start, construct. unfold_m.
  destruct s; cbn; split; intro H; try discriminate H; reflexivity.
Qed.

Lemma run_is_settled (s : bool) (l : L) (minimum : Z) (es : list event) :
  settled (run s l minimum es).
Proof. apply deliver_all_keeps_settled, start_is_settled. Qed.

Lemma deliver_when_complete (e : event) (p : state) :
  cleared_ p = true ->
  stopped_ p = true ->
  cleared_ (snd (deliver e p)) = true /\
  stopped_ (snd (deliver e p)) = true /\
  without_clock (snd (deliver e p)) = without_clock p.
Proof.
  intros C S. unfold without_clock.
  by_handler e; rewrite ?C, ?S;
    repeat match goal with
           | |- context [if ?b then _ else _] => destruct b
           end;
    cbn; auto.
  destruct p; cbn in *; subst; auto.
Qed.

Lemma deliver_all_when_complete (es : list event) :
  forall p : state,
    cleared_ p = true ->
    stopped_ p = true ->
    without_clock (deliver_all es p) = without_clock p.
Proof.
  induction es as [|e es IH]; intros p C S; [reflexivity|].
  cbn [deliver_all].
  destruct (deliver_when_complete e p C S) as (C' & S' & E).
  rewrite (IH _ C' S'). exact E.
Qed.

(** X2: in every run, once the handler has been invoked the channel is
    stopped, and whatever is delivered afterwards changes nothing but the
    interval counter: the header list, the trace and the flags stay as
    they were at completion. *)
Theorem completed_run_is_frozen (s : bool) (l : L) (minimum : Z)
  (es more : list event) :
  cleared_ (run s l minimum es) = true ->
  stopped_ (run s l minimum es) = true /\
  without_clock (run s l minimum (es ++ more))
  = without_clock (run s l minimum es) /\
  headers_ (run s l minimum (es ++ more)) = headers_ (run s l minimum es) /\
  trace_ (run s l minimum (es ++ more)) = trace_ (run s l minimum es).
Proof.
  intro C.
  destruct (run_is_settled s l minimum es) as [Hc _].
  destruct (Hc C) as [S _].
  assert (E : without_clock (run s l minimum (es ++ more))
              = without_clock (run s l minimum es)).
  { unfold run. rewrite deliver_all_app.
    apply deliver_all_when_complete; assumption. }
  split; [exact S|]. split; [exact E|].
  split.
  - exact (f_equal headers_ E).
  - exact (f_equal trace_ E).
Qed.

(** X3: in every run, if the handler has been invoked with [success]
    then the header list is complete. *)
Theorem success_means_complete (s : bool) (l : L) (minimum : Z)
  (es : list event) :
  In success (handler_calls (trace_ (run s l minimum es))) ->
  Headers.complete (headers_ (run s l minimum es)) = true.
Proof.
  intro H.
  destruct (run_is_settled s l minimum es) as [Hc Ho].
  destruct (cleared_ (run s l minimum es)) eqn:C.
  - apply (Hc eq_refl), H.
  - rewrite (Ho eq_refl) in H. destruct H.
Qed.

(** *** The interval counter *)

Lemma deliver_clock (e : event) (p : state) :
  current_second_ (snd (deliver e p))
  = if is_tick e then to_size (current_second_ p + expiry_interval)
    else current_second_ p.
Proof.
  destruct e as [ec message|ec|ec|]; cbn [is_tick].
  - rewrite deliver_headers_outcome. unfold receive_headers_by_cases.
    cbv zeta. rewrite ?barrier_outcome. cbn [cleared_ set_headers].
    repeat match goal with
           | |- context [if ?b then _ else _] => destruct b
           end;
      reflexivity.
  - cbn [deliver]. rewrite handle_event_outcome.
    destruct (ends_timer ec); cbn [negb]; rewrite ?barrier_outcome;
      cbn [cleared_ set_current_second];
      repeat match goal with
             | |- context [if ?b then _ else _] => destruct b
             end;
      reflexivity.
  - cbn [deliver]. rewrite handle_send_outcome, ?barrier_outcome.
    repeat match goal with
           | |- context [if ?b then _ else _] => destruct b
           end;
      reflexivity.
  - reflexivity.
Qed.

Lemma ticks_cons (e : event) (es : list event) :
  ticks (e :: es) = (if is_tick e then 1 else 0) + ticks es.
Proof.
  unfold ticks. cbn [filter].
  destruct (is_tick e); [|reflexivity].
  cbn [length]. lia.
Qed.

Lemma deliver_all_clock (es : list event) :
  forall (p : state) (k : Z),
    current_second_ p = to_size k ->
    current_second_ (deliver_all es p)
    = to_size (k + expiry_interval * ticks es).
Proof.
  induction es as [|e es IH]; intros p k Hk.
  - cbn [deliver_all]. unfold ticks. cbn. rewrite Z.add_0_r. exact Hk.
  - cbn [deliver_all]. rewrite ticks_cons.
    destruct (is_tick e) eqn:T.
    + rewrite (IH _ (k + expiry_interval)).
      * f_equal. lia.
      * rewrite deliver_clock, T, Hk. unfold to_size.
        apply Zplus_mod_idemp_l.
    + rewrite (IH _ k).
      * f_equal.
      * rewrite deliver_clock, T. exact Hk.
Qed.

(** X4: in every run [current_second_] is five times the number of timer
    events that are neither [channel_stopped] nor another error, modulo
    2^64, whether or not the run has completed; so the divisor of the rate
    is not zero as long as fewer than 2^64 such events have arrived. *)
Theorem clock_counts_ticks (s : bool) (l : L) (minimum : Z)
  (es : list event) :
  current_second_ (run s l minimum es)
  = to_size (expiry_interval * ticks es) /\
  (0 < ticks es < size_modulus -> current_second_ (run s l minimum es) <> 0).
Proof.
  assert (E : current_second_ (run s l minimum es)
              = to_size (expiry_interval * ticks es)).
  { unfold run. rewrite (deliver_all_clock es _ 0); [reflexivity|].
    unfold start, construct. unfold_m. destruct s; reflexivity. }
  split; [exact E|].
  intros [Hpos Hlt]. rewrite E. unfold to_size. intro Hz.
  apply Z.mod_divide in Hz; [|discriminate].
  apply Z.gauss in Hz; [|reflexivity].
  apply Z.divide_pos_le in Hz; [|exact Hpos].
  lia.
Qed.

Lemma sync_rate_nonnegative (p : state) :
  0 < current_second_ p -> 0 <= sync_rate p.
Proof.
  intro H. unfold sync_rate.
  apply Z.div_pos; [|exact H].
  unfold to_size. apply Z.mod_pos_bound. reflexivity.
Qed.

(** X5: with a minimum rate of 0 a timer event that is not an error never
    completes the run, as long as the advanced [current_second_] has not
    wrapped to 0 (where the code would divide by zero): the unsigned rate
    cannot be below 0, so the handler only advances [current_second_] and
    does not call [complete]. *)
Theorem zero_minimum_rate_never_times_out (ec : code)
  (complete : event_handler) (p : state) :
  minimum_rate_ p = 0 ->
  ends_timer ec = false ->
  to_size (current_second_ p + expiry_interval) <> 0 ->
  handle_event ec complete p
  = (tt, set_current_second (to_size (current_second_ p + expiry_interval)) p).
Proof.
  intros Hm He Hd. apply orb_false_elim in He. destruct He as [E1 E2].
  rewrite handle_event_tick by assumption. cbv zeta.
  rewrite Hm.
  assert (H : 0 <= sync_rate
                (set_current_second
                   (to_size (current_second_ p + expiry_interval)) p)).
  { apply sync_rate_nonnegative. cbn.
    pose proof (Z.mod_pos_bound (current_second_ p + expiry_interval)
                  size_modulus eq_refl) as B.
    unfold to_size in *. lia. }
  apply Z.ltb_ge in H. rewrite H. reflexivity.
Qed.

(** *** Requests *)




Lemma deliver_requests (e : event) (p : state) :
  (length (requests (trace_ (snd (deliver e p))))
   <= length (requests (trace_ p)) + (if is_full_batch e then 1 else 0))%nat.
Proof.
  destruct e as [ec message|ec|ec|].
  - rewrite deliver_headers_outcome. unfold receive_headers_by_cases.
    cbn [is_full_batch].
    destruct (stopped_ p), (is_error ec),
      (fst (Headers.merge (headers_ p) message)),
      (Headers.complete (snd (Headers.merge (headers_ p) message))),
      (length message <? max_get_headers)%nat;
      cbn; rewrite ?barrier_outcome; cbn;
      destruct (cleared_ p); cbn;
      rewrite ?requests_app, ?length_app; cbn; unfold requests; lia.
  - cbn [deliver is_full_batch]. rewrite handle_event_outcome.
    rewrite ?barrier_outcome. cbn [cleared_ set_current_second].
    repeat match goal with
           | |- context [if ?b then _ else _] => destruct b
           end;
      cbn; rewrite ?requests_app, ?length_app; cbn; unfold requests; lia.
  - cbn [deliver is_full_batch]. rewrite handle_send_outcome.
    rewrite ?barrier_outcome.
    repeat match goal with
           | |- context [if ?b then _ else _] => destruct b
           end;
      cbn; rewrite ?requests_app, ?length_app; cbn; unfold requests; lia.
  - cbn. unfold requests. lia.
Qed.

Lemma deliver_all_requests (es : list event) :
  forall p : state,
    (length (requests (trace_ (deliver_all es p)))
     <= length (requests (trace_ p)) + full_batches es)%nat.
Proof.
  induction es as [|e es IH]; intro p.
  - cbn. lia.
  - cbn [deliver_all]. specialize (IH (snd (deliver e p))).
    pose proof (deliver_requests e p) as H.
    unfold full_batches in *. cbn [filter].
    destruct (is_full_batch e); cbn [length]; lia.
Qed.

(** X7: a run sends at most one [get_headers] at start and one more for
    each error-free [headers] delivery of at least 2000 headers; on a
    channel that is stopped from the start it sends none. *)
Theorem requests_are_bounded_by_full_batches (s : bool) (l : L)
  (minimum : Z) (es : list event) :
  (length (requests (trace_ (run s l minimum es)))
   <= (if s then 0 else 1) + full_batches es)%nat /\
  (s = true -> requests (trace_ (run s l minimum es)) = []).
Proof.
  split.
  - unfold run.
    pose proof (deliver_all_requests es
                  (snd (start user_handler (construct s l minimum)))) as H.
    assert (E : length (requests (trace_
                  (snd (start user_handler (construct s l minimum)))))
                = if s then 0%nat else 1%nat).
    { unfold start, construct. unfold_m. destruct s; reflexivity. }
    rewrite E in H. exact H.
  - intros ->. unfold run.
    destruct (stopped_channel_is_left_alone_aux es
                (snd (start user_handler (construct true l minimum))))
      as (_ & _ & Hr); [reflexivity|].
    rewrite Hr. reflexivity.
Qed.

End WithHeaderList.

(** *** Concrete runs *)

Import HeaderList Examples MoreExamples.

Lemma stopped_channel_is_left_alone_witness :
  stopped_ closed_early = true /\
  headers_ (deliver_all (clean_sync ++ stragglers) closed_early) = toy_table /\
  requests (trace_ (deliver_all (clean_sync ++ stragglers) closed_early))
  = [send_get_headers_request [16] 19].
Proof.
  assert (S : stopped_ closed_early = true) by reflexivity.
  split; [exact S|].
  destruct (stopped_channel_is_left_alone (clean_sync ++ stragglers)
              closed_early S) as (_ & Hh & Hr).
  split; [rewrite Hh | rewrite Hr]; reflexivity.
Defined.

Lemma completed_run_is_frozen_witness :
  cleared_ (run false toy_table 10 clean_sync) = true /\
  headers_ (run false toy_table 10 (clean_sync ++ stragglers))
  = mk_header_list 0 16 19 3 good_batch.
Proof.
  assert (C : cleared_ (run false toy_table 10 clean_sync) = true)
    by reflexivity.
  split; [exact C|].
  destruct (completed_run_is_frozen false toy_table 10 clean_sync stragglers C)
    as (_ & _ & Hh & _).
  rewrite Hh. reflexivity.
Defined.

Lemma success_means_complete_witness :
  handler_calls (trace_ (run false toy_table 10 clean_sync)) = [success] /\
  Headers.complete (headers_ (run false toy_table 10 clean_sync)) = true.
Proof.
  split; [reflexivity|].
  apply (success_means_complete false toy_table 10 clean_sync).
  left. reflexivity.
Defined.

Lemma clock_counts_ticks_witness :
  ticks two_ticks = 2 /\
  current_second_ (run false toy_table 0 two_ticks) <> 0.
Proof.
  split; [reflexivity|].
  apply (proj2 (clock_counts_ticks false toy_table 0 two_ticks)).
  split; reflexivity.
Defined.

Lemma zero_minimum_rate_never_times_out_witness :
  minimum_rate_ (run false toy_table 0 []) = 0 /\
  ends_timer channel_timeout = false /\
  to_size (current_second_ (run false toy_table 0 []) + expiry_interval)
  <> 0 /\
  handle_event channel_timeout barrier (run false toy_table 0 [])
  = (tt, set_current_second 5 (run false toy_table 0 [])).
Proof.
  assert (Hm : minimum_rate_ (run false toy_table 0 []) = 0) by reflexivity.
  assert (Hd : to_size (current_second_ (run false toy_table 0 [])
                        + expiry_interval) <> 0) by discriminate.
  split; [exact Hm|]. split; [reflexivity|]. split; [exact Hd|].
  rewrite (zero_minimum_rate_never_times_out channel_timeout barrier
             (run false toy_table 0 []) Hm eq_refl Hd).
  reflexivity.
Defined.

End ProtocolHeaderSyncRunFacts.

(** ** The message streams of the session *)

Module SessionStreamFacts.

Import Session SessionStreams Examples.

Local Open Scope session_scope.

Section WithCollaborators.

Variable assertions : bool.
Variable hash_block_header : block_header_type -> hash_digest.
Variable tx_pool : hash_digest -> bool.

Lemma fst_wbind {A B : Type} (c : W A) (k : A -> W B) :
  fst (wbind c k)
  = fst c ++ match snd c with
             | Some a => fst (k a)
             | None => []
             end.
Proof.
  destruct c as [done [a|]]; cbn.
  - destruct (k a). reflexivity.
  - rewrite app_nil_r. reflexivity.
Qed.

Lemma for_each_total {A : Type} (body : A -> W unit)
  (calls : A -> list action) (l : list A) :
  (forall x, In x l -> body x = (calls x, Some tt)) ->
  for_each body l = (flat_map calls l, Some tt).
Proof.
  induction l as [|x l IH]; intro H; [reflexivity|].
  cbn [for_each flat_map]. unfold wbind.
  rewrite (H x (or_introl eq_refl)).
  rewrite IH by (intros y Hy; apply H; right; exact Hy).
  reflexivity.
Qed.

Lemma not_error_is_success (ec : code) : is_error ec = false -> ec = success.
Proof. destruct ec; cbn; intro H; try discriminate H; reflexivity. Qed.

Lemma inventory_on_channel (packet : inventory_type) (node : channel) :
  inventory assertions success packet (Some node)
  = (flat_map (inventory_vector_calls node) (inventories packet)
     ++ [node_subscribe_inventory node],
     Some tt).
Proof.
  unfold inventory. cbn [is_error code_eqb negb].
  rewrite (for_each_total _ (inventory_vector_calls node)).
  - unfold BITCOIN_ASSERT. rewrite andb_false_r. reflexivity.
  - intros v _. unfold inventory_vector_calls.
    destruct (type v); reflexivity.
Qed.

Lemma inventory_posts_each_transaction_aux (ec : code)
  (packet : inventory_type) (node : channel) :
  is_error ec = false ->
  inventory assertions ec packet (Some node)
  = (flat_map (inventory_vector_calls node) (inventories packet)
     ++ [node_subscribe_inventory node],
     Some tt).
Proof.
  intro H. rewrite (not_error_is_success ec H). apply inventory_on_channel.
Qed.

(** X8: an [inv] message delivered without error on a channel makes the
    handler post one [new_tx_inventory] task per transaction vector, in
    the order of the message, do nothing for block vectors, warn for every
    other type, and then subscribe to the channel's inventory stream
    again, exactly once; no vector makes it stop early. *)
Theorem inventory_posts_each_transaction (ec : code)
  (packet : inventory_type) (node : channel) :
  is_error ec = false ->
  inventory assertions ec packet (Some node)
  = (flat_map (inventory_vector_calls node) (inventories packet)
     ++ [node_subscribe_inventory node],
     Some tt).
Proof. apply inventory_posts_each_transaction_aux. Qed.

Lemma new_tx_inventory_calls (tx_hash : hash_digest) (node : channel) :
  new_tx_inventory assertions tx_pool tx_hash (Some node)
  = (tx_pool_exists tx_hash
     :: (if tx_pool tx_hash then []
         else [node_send node
                 (mk_inventory [mk_inventory_vector transaction tx_hash])]),
     Some tt).
Proof.
  unfold new_tx_inventory, request_tx_data, BITCOIN_ASSERT.
  destruct (tx_pool tx_hash); [reflexivity|].
  rewrite andb_false_r. reflexivity.
Qed.

Lemma run_task_on_vector_calls (node : channel) (v : inventory_vector_type) :
  for_each (run_task assertions tx_pool) (inventory_vector_calls node v)
  = (match type v with
     | transaction =>
         tx_pool_exists (hash v)
         :: (if tx_pool (hash v) then []
             else [node_send node
                     (mk_inventory
                        [mk_inventory_vector transaction (hash v)])])
     | _ => []
     end,
     Some tt).
Proof.
  unfold inventory_vector_calls.
  destruct (type v); cbn [for_each run_task]; [|reflexivity|reflexivity].
  rewrite new_tx_inventory_calls. unfold wbind, wret.
  rewrite app_nil_r. reflexivity.
Qed.

Lemma for_each_app {A : Type} (body : A -> W unit) (l l' : list A) :
  for_each body (l ++ l') = (for_each body l ;; for_each body l').
Proof.
  induction l as [|x l IH]; cbn [for_each app].
  - unfold wbind, wret. destruct (for_each body l'). reflexivity.
  - rewrite IH. destruct (body x) as [d [[]|]]; cbn; [|reflexivity].
    destruct (for_each body l) as [d1 [[]|]]; cbn.
    + destruct (for_each body l') as [d2 r]. f_equal. apply app_assoc.
    + reflexivity.
Qed.

Lemma run_strand_on_vectors (node : channel)
  (vs : list inventory_vector_type) :
  snd (run_strand assertions tx_pool
         (flat_map (inventory_vector_calls node) vs)) = Some tt /\
  filter is_node_send
    (fst (run_strand assertions tx_pool
            (flat_map (inventory_vector_calls node) vs)))
  = map (fun v => node_send node
                    (mk_inventory [mk_inventory_vector transaction (hash v)]))
      (filter (is_wanted tx_pool) vs).
Proof.
  unfold run_strand.
  induction vs as [|v vs [IHs IHf]]; [split; reflexivity|].
  cbn [flat_map filter]. rewrite for_each_app, run_task_on_vector_calls.
  unfold wbind.
  destruct (for_each (run_task assertions tx_pool)
              (flat_map (inventory_vector_calls node) vs)) as [d r].
  cbn [fst snd] in *. split; [exact IHs|].
  rewrite filter_app, IHf. unfold is_wanted.
  destruct (type v); cbn; [|reflexivity|reflexivity].
  destruct (tx_pool (hash v)); reflexivity.
Qed.

(** X9: when the strand has run the tasks that an error-free [inv]
    message posted, the [get_data] requests sent are exactly one per
    transaction vector whose hash the pool does not hold, in the order of
    the message, each on the announcing channel and holding that one
    transaction vector; no task is cut short. *)
Theorem announced_unknown_transactions_are_requested (ec : code)
  (packet : inventory_type) (node : channel) :
  is_error ec = false ->
  snd (run_strand assertions tx_pool
         (fst (inventory assertions ec packet (Some node)))) = Some tt /\
  filter is_node_send
    (fst (run_strand assertions tx_pool
            (fst (inventory assertions ec packet (Some node)))))
  = map (fun v => node_send node
                    (mk_inventory [mk_inventory_vector transaction (hash v)]))
      (filter (is_wanted tx_pool) (inventories packet)).
Proof.
  intro H. rewrite (not_error_is_success ec H), inventory_on_channel.
  cbn [fst].
  destruct (run_strand_on_vectors node (inventories packet)) as [Hs Hf].
  unfold run_strand in *. rewrite for_each_app. unfold wbind.
  destruct (for_each (run_task assertions tx_pool)
              (flat_map (inventory_vector_calls node) (inventories packet)))
    as [d r].
  cbn [fst snd] in *. subst r. cbn.
  rewrite app_nil_r. split; [reflexivity|exact Hf].
Qed.

(** *** Renewal of the stream subscriptions *)

Lemma loop_never_subscribes (node : channel_ptr) (c : channel)
  (vs : list inventory_vector_type) :
  ~ In (node_subscribe_inventory c) (fst (for_each (vector_body node) vs)).
Proof.
  induction vs as [|v vs IH]; [intros []|].
  cbn [for_each]. rewrite fst_wbind. intro H.
  apply in_app_or in H. destruct H as [H|H].
  - unfold vector_body in H.
    destruct (inventory_type_id_eqb (type v) transaction).
    { destruct H as [H|[]]. discriminate H. }
    destruct (negb _); [|destruct H].
    destruct node as [n|]; cbn in H; [|destruct H].
    destruct H as [H|[]]. discriminate H.
  - destruct (snd (vector_body node v)); [exact (IH H)|destruct H].
Qed.

(** X10: the handlers of the two per-channel streams subscribe again
    exactly when the delivery carries no error code and the channel
    pointer is not null: after an error, or with a null pointer, the
    stream is not renewed, in either build. *)
Theorem streams_are_renewed_iff (ec : code) (packet : inventory_type)
  (node : channel_ptr) (c : channel) :
  (In (node_subscribe_inventory c)
      (fst (inventory assertions ec packet node)) <->
   is_error ec = false /\ node = Some c) /\
  (In (node_subscribe_get_blocks c) (fst (get_blocks assertions ec node)) <->
   is_error ec = false /\ node = Some c).
Proof.
  split.
  - destruct (is_error ec) eqn:He.
    + unfold inventory. rewrite He. cbn.
      split; [intros [H|[]]; discriminate H | intros [H _]; discriminate H].
    + destruct node as [n|].
      * rewrite inventory_posts_each_transaction_aux by exact He. cbn [fst].
        split.
        -- intro H. apply in_app_or in H. destruct H as [H|[H|[]]].
           ++ exfalso. apply in_flat_map in H. destruct H as (v & _ & H).
              unfold inventory_vector_calls in H.
              destruct (type v); cbn in H; intuition discriminate.
           ++ injection H as ->. auto.
        -- intros [_ H]. injection H as ->.
           apply in_or_app. right. left. reflexivity.
      * split; [|intros [_ H]; discriminate H].
        unfold inventory. rewrite He.
        change (fun inv : inventory_vector_type => _)
          with (vector_body None).
        rewrite fst_wbind. intro H. exfalso.
        apply in_app_or in H. destruct H as [H|H].
        -- exact (loop_never_subscribes None c _ H).
        -- destruct (snd (for_each (vector_body None) (inventories packet)));
             [|destruct H].
           unfold BITCOIN_ASSERT in H. destruct assertions; cbn in H; exact H.
  - unfold get_blocks, BITCOIN_ASSERT.
    destruct (is_error ec).
    + cbn. split; [intros [H|[]]; discriminate H | intros [H _]; discriminate H].
    + destruct node as [n|].
      * rewrite andb_false_r. cbn.
        split.
        -- intros [H|[]]. injection H as ->. auto.
        -- intros [_ H]. injection H as ->. left. reflexivity.
      * destruct assertions; cbn;
          (split; [intros [] | intros [_ H]; discriminate H]).
Qed.

(** *** Reorganizations *)

Lemma cast_through_size (z : Z) : to_uint32 (to_size z) = z mod 2 ^ 32.
Proof.
  unfold to_uint32, to_size, size_modulus, size_bits.
  apply Z.mod_mod_divide. exists (2 ^ 32). reflexivity.
Qed.

(** X11: what an error-free reorganization does at any height.  Built
    without assertions the session pushes [fork_point + len(new_blocks)]
    reduced modulo 2^32, subscribes again and broadcasts the block
    vectors; built with assertions it stops before making any call when
    that sum exceeds [max_uint32]. *)
Theorem reorganization_height_wraps_or_asserts (fork_point : Z)
  (new_blocks replaced_blocks : list block_type) :
  set_start_height false hash_block_header success fork_point new_blocks
    replaced_blocks
  = ([handshake_set_start_height
        ((fork_point + Z.of_nat (length new_blocks)) mod 2 ^ 32);
      chain_subscribe_reorganize;
      protocol_broadcast
        (mk_inventory
           (map (fun b => mk_inventory_vector block
                            (hash_block_header (header b))) new_blocks))],
     Some tt) /\
  (is_uint32 fork_point ->
   max_uint32 < fork_point + Z.of_nat (length new_blocks) ->
   set_start_height true hash_block_header success fork_point new_blocks
     replaced_blocks
   = ([], None)).
Proof.
  split.
  - unfold set_start_height, BITCOIN_ASSERT. cbn [is_error code_eqb negb andb].
    rewrite cast_through_size.
    rewrite (SessionFacts.blocks_inventory_in_chain_order hash_block_header).
    reflexivity.
  - intros Hf Hover.
    unfold set_start_height, BITCOIN_ASSERT. cbn [is_error code_eqb negb andb].
    assert (E : (Z.of_nat (length new_blocks)
                 <=? to_uint32 (max_uint32 - fork_point)) = false).
    { apply Z.leb_gt. unfold to_uint32, is_uint32, max_uint32 in *.
      change (2 ^ 32) with 4294967296 in *.
      rewrite Z.mod_small; lia. }
    rewrite E. reflexivity.
Qed.

(** X12: a reorganization notification that carries an error makes the
    session call nothing: no height is pushed, nothing is broadcast and
    the reorganization subscription is not renewed; the handler returns
    normally unless assertions are on and the code is not
    [service_stopped]. *)
Theorem reorganization_error_ends_subscription (ec : code) (fork_point : Z)
  (new_blocks replaced_blocks : list block_type) :
  is_error ec = true ->
  fst (set_start_height assertions hash_block_header ec fork_point
         new_blocks replaced_blocks) = [] /\
  (snd (set_start_height assertions hash_block_header ec fork_point
          new_blocks replaced_blocks) = Some tt <->
   assertions = false \/ ec = service_stopped).
Proof.
  intro He. unfold set_start_height, BITCOIN_ASSERT. rewrite He.
  destruct assertions; cbn [andb].
  - destruct ec; cbn; (split; [reflexivity|]);
      (split; [intro H; try discriminate H; auto
              | intros [H|H]; try discriminate H; reflexivity]).
  - split; [reflexivity|]. split; auto.
Qed.

(** *** Channels that come up *)

Lemma notify_success (s : subscription) (node : channel) :
  subscribed s = true ->
  crashed s = false ->
  notify assertions s (success, Some node)
  = mk_subscription true (S (handled s)) (performed s ++ channel_calls node)
      false.
Proof.
  intros Hs Hc. unfold notify. rewrite Hc, Hs. cbn [fst snd].
  unfold new_channel, BITCOIN_ASSERT. cbn [is_error code_eqb negb].
  rewrite andb_false_r. reflexivity.
Qed.

Lemma notify_all_success (nodes : list channel) :
  forall s,
    subscribed s = true ->
    crashed s = false ->
    notify_all assertions s (map (fun c => (success, Some c)) nodes)
    = mk_subscription true (handled s + length nodes)
        (performed s ++ flat_map channel_calls nodes) false.
Proof.
  unfold notify_all.
  induction nodes as [|c nodes IH]; intros s Hs Hc.
  - cbn. rewrite Nat.add_0_r, app_nil_r.
    destruct s; cbn in *; subst; reflexivity.
  - cbn [map fold_left]. rewrite (notify_success s c Hs Hc).
    rewrite IH by reflexivity.
    cbn [handled performed flat_map length].
    rewrite <- app_assoc. f_equal. lia.
Qed.

(** X13: after [session::start], as long as every new-channel
    notification arrives without error and with a channel, the session
    handles each one, stays subscribed, and for every channel in turn
    subscribes to its inventory and get-blocks streams, renews the
    new-channel subscription and hands the channel to the poller. *)
Theorem session_follows_every_new_channel (nodes : list channel) :
  notify_all assertions after_start (map (fun c => (success, Some c)) nodes)
  = mk_subscription true (length nodes) (flat_map channel_calls nodes) false.
Proof.
  rewrite notify_all_success by reflexivity. reflexivity.
Qed.

End WithCollaborators.

(** *** Concrete messages *)

Import MoreExamples.

Lemma inventory_posts_each_transaction_witness :
  is_error success = false /\
  inventory true success mixed_packet (Some 3)
  = ([strand_post_new_tx_inventory 42 (Some 3);
      log_warning_unknown_inventory 3;
      strand_post_new_tx_inventory 43 (Some 3);
      node_subscribe_inventory 3],
     Some tt).
Proof.
  split; [reflexivity|].
  exact (eq_trans
           (inventory_posts_each_transaction true success mixed_packet 3
              eq_refl)
           eq_refl).
Defined.

Lemma announced_unknown_transactions_are_requested_witness :
  is_error success = false /\
  filter is_node_send
    (fst (run_strand true pool_with_42
            (fst (inventory true success mixed_packet (Some 3)))))
  = [node_send 3 (mk_inventory [mk_inventory_vector transaction 43])].
Proof.
  split; [reflexivity|].
  exact (eq_trans
           (proj2 (announced_unknown_transactions_are_requested true
                     pool_with_42 success mixed_packet 3 eq_refl))
           eq_refl).
Defined.

Lemma reorganization_height_wraps_or_asserts_witness :
  is_uint32 4294967295 /\
  max_uint32 < 4294967295 + Z.of_nat (length [block_101; block_102]) /\
  set_start_height true toy_hash success 4294967295 [block_101; block_102] []
  = ([], None).
Proof.
  assert (Hf : is_uint32 4294967295)
    by (unfold is_uint32, max_uint32; cbn; lia).
  assert (Ho : max_uint32
               < 4294967295 + Z.of_nat (length [block_101; block_102]))
    by (unfold max_uint32; cbn; lia).
  split; [exact Hf|]. split; [exact Ho|].
  exact (proj2 (reorganization_height_wraps_or_asserts toy_hash 4294967295
                  [block_101; block_102] []) Hf Ho).
Defined.

Lemma reorganization_error_ends_subscription_witness :
  is_error service_stopped = true /\
  set_start_height true toy_hash service_stopped 100 [block_101] []
  = ([], Some tt).
Proof.
  split; [reflexivity|].
  destruct (reorganization_error_ends_subscription true toy_hash
              service_stopped 100 [block_101] [] eq_refl) as [Hf Hs].
  destruct (set_start_height true toy_hash service_stopped 100 [block_101] [])
    as [acts r].
  cbn [fst snd] in *. rewrite Hf, (proj2 Hs (or_intror eq_refl)).
  reflexivity.
Defined.

End SessionStreamFacts.

(** ** Single-shot subscriptions *)

Module SubscriptionFacts.

Import Subscription.

Section Stream.

Variables E A : Type.
Variable handler : E -> list A * option unit.
Variable renews : A -> bool.

Lemma feed_all_unarmed (es : list E) :
  forall s : stream A,
    armed s = false -> feed_all handler renews s es = s.
Proof.
  unfold feed_all.
  induction es as [|e es IH]; intros s H; [reflexivity|].
  cbn [fold_left].
  assert (F : feed handler renews s e = s).
  { unfold feed. rewrite H. destruct (halted s); reflexivity. }
  rewrite F. apply IH, H.
Qed.

Lemma feed_all_renewed (es : list E) :
  forall s : stream A,
    armed s = true ->
    halted s = false ->
    (forall e, In e es ->
       snd (handler e) = Some tt /\ existsb renews (fst (handler e)) = true) ->
    feed_all handler renews s es
    = mk_stream true (delivered s + length es)
        (calls s ++ flat_map (fun e => fst (handler e)) es) false.
Proof.
  unfold feed_all.
  induction es as [|e es IH]; intros s Ha Hh Hes.
  - cbn. rewrite Nat.add_0_r, app_nil_r.
    destruct s; cbn in *; subst; reflexivity.
  - cbn [fold_left].
    destruct (Hes e (or_introl eq_refl)) as [Hr He].
    assert (F : feed handler renews s e
                = mk_stream true (S (delivered s))
                    (calls s ++ fst (handler e)) false).
    { unfold feed. rewrite Hh, Ha.
      destruct (handler e) as [acts r]. cbn [fst snd] in *.
      rewrite He, Hr. reflexivity. }
    rewrite F, IH; [| reflexivity | reflexivity
                    | intros x Hx; apply Hes; right; exact Hx].
    cbn [delivered calls flat_map length].
    rewrite <- app_assoc. f_equal. lia.
Qed.

Lemma feed_all_until_failure (good later : list E) (bad : E) :
  (forall e, In e good ->
     snd (handler e) = Some tt /\ existsb renews (fst (handler e)) = true) ->
  snd (handler bad) = Some tt ->
  existsb renews (fst (handler bad)) = false ->
  feed_all handler renews fresh (good ++ bad :: later)
  = mk_stream false (S (length good))
      (flat_map (fun e => fst (handler e)) good ++ fst (handler bad)) false.
Proof.
  intros Hgood Hr Hb.
  unfold feed_all. rewrite fold_left_app.
  fold (feed_all handler renews fresh good).
  rewrite feed_all_renewed by (try reflexivity; exact Hgood).
  cbn [fold_left]. unfold feed at 2. cbn [halted armed delivered calls].
  destruct (handler bad) as [acts r]. cbn [fst snd] in *.
  rewrite Hb, Hr.
  apply feed_all_unarmed. reflexivity.
Qed.

End Stream.

End SubscriptionFacts.

(** ** The full node *)

Module FullNodeFacts.

Import FullNode Subscription.
Import String.StringSyntax.

Local Open Scope string_scope.

(** *** The list of unconfirmed inputs *)

Lemma digits_are_comma_free (d : Decimal.uint) :
  comma_free (DecimalString.NilEmpty.string_of_uint d) = true.
Proof. induction d; cbn; auto. Qed.

Lemma read_index_lexical_cast (n : N) : read_index (lexical_cast n) = Some n.
Proof.
  unfold read_index, lexical_cast.
  rewrite DecimalString.NilEmpty.usu. cbn.
  rewrite DecimalN.Unsigned.of_to. reflexivity.
Qed.

Lemma lexical_cast_is_not_empty (n : N) :
  lexical_cast n <> String.EmptyString.
Proof.
  intro H. pose proof (read_index_lexical_cast n) as R.
  rewrite H in R. cbn in R. injection R as <-. discriminate H.
Qed.

Lemma split_commas_field (field rest : String.string) :
  comma_free field = true ->
  split_commas (String.append field (String.String comma rest))
  = field :: split_commas rest.
Proof.
  induction field as [|c field IH]; cbn; intro H.
  - reflexivity.
  - apply andb_prop in H. destruct H as [Hc Hf].
    apply negb_true_iff in Hc. rewrite Hc, (IH Hf). reflexivity.
Qed.

Lemma split_commas_single (field : String.string) :
  comma_free field = true -> split_commas field = [field].
Proof.
  induction field as [|c field IH]; cbn; intro H.
  - reflexivity.
  - apply andb_prop in H. destruct H as [Hc Hf].
    apply negb_true_iff in Hc. rewrite Hc, (IH Hf). reflexivity.
Qed.

Lemma split_commas_join (field : String.string) (fields : list String.string) :
  Forall (fun f => comma_free f = true) (field :: fields) ->
  split_commas (join (field :: fields) (String.String comma String.EmptyString))
  = field :: fields.
Proof.
  unfold join. revert field.
  induction fields as [|g fields IH]; intros field H.
  - cbn. apply split_commas_single. inversion H. assumption.
  - inversion H as [|? ? Hf Hrest]; subst.
    change (String.concat (String.String comma String.EmptyString)
              (field :: g :: fields))
      with (String.append field
              (String.String comma
                 (String.concat (String.String comma String.EmptyString)
                    (g :: fields)))).
    rewrite split_commas_field by exact Hf.
    rewrite (IH g Hrest). reflexivity.
Qed.

Lemma read_indexes_lexical_cast (l : list N) :
  read_indexes (map lexical_cast l) = Some l.
Proof.
  induction l as [|n l IH]; [reflexivity|].
  cbn [map read_indexes]. rewrite read_index_lexical_cast, IH. reflexivity.
Qed.

Lemma join_is_not_empty (field : String.string) (fields : list String.string) :
  field <> String.EmptyString ->
  join (field :: fields) (String.String comma String.EmptyString)
  <> String.EmptyString.
Proof.
  intro H. unfold join. destruct fields as [|g fields]; [exact H|].
  cbn [String.concat]. destruct field; [contradiction|].
  cbn. discriminate.
Qed.

Lemma format_is_not_empty (n : N) (l : list N) :
  format_unconfirmed_inputs (n :: l) <> String.EmptyString.
Proof.
  apply (join_is_not_empty (lexical_cast n) (map lexical_cast l)).
  apply lexical_cast_is_not_empty.
Qed.

Lemma read_format (unconfirmed : list N) :
  read_unconfirmed_inputs (format_unconfirmed_inputs unconfirmed)
  = Some unconfirmed.
Proof.
  destruct unconfirmed as [|n l]; [reflexivity|].
  pose proof (format_is_not_empty n l) as Hne.
  unfold read_unconfirmed_inputs.
  destruct (format_unconfirmed_inputs (n :: l)) eqn:F; [contradiction|].
  rewrite <- F. unfold format_unconfirmed_inputs.
  change (map lexical_cast (n :: l))
    with (lexical_cast n :: map lexical_cast l).
  rewrite split_commas_join.
  - apply (read_indexes_lexical_cast (n :: l)).
  - change (lexical_cast n :: map lexical_cast l)
      with (map lexical_cast (n :: l)).
    apply Forall_forall. intros f Hf.
    apply in_map_iff in Hf. destruct Hf as (k & <- & _).
    apply digits_are_comma_free.
Qed.

(** X14: [format_unconfirmed_inputs] loses nothing: splitting its result
    at the commas and reading each field as a decimal number gives back
    the list of indexes, so two lists with the same text are the same
    list; and the text is empty exactly for the empty list. *)
Theorem format_unconfirmed_inputs_reads_back (unconfirmed : list N) :
  read_unconfirmed_inputs (format_unconfirmed_inputs unconfirmed)
  = Some unconfirmed /\
  (forall other,
     format_unconfirmed_inputs other = format_unconfirmed_inputs unconfirmed ->
     other = unconfirmed) /\
  (format_unconfirmed_inputs unconfirmed = String.EmptyString <->
   unconfirmed = []).
Proof.
  split; [apply read_format|]. split.
  - intros other H.
    pose proof (read_format other) as R. rewrite H, read_format in R.
    injection R as R. symmetry. exact R.
  - destruct unconfirmed as [|n l]; [split; reflexivity|].
    split; [intro H; destruct (format_is_not_empty n l H) | discriminate].
Qed.

Example three_unconfirmed_inputs :
  format_unconfirmed_inputs [3; 15; 0]%N = "3,15,0".
Proof. reflexivity. Qed.

Section WithCollaborators.

Variable transaction_type : Type.
Variable hash_transaction : transaction_type -> hash_digest.
Variable encode_hash : hash_digest -> String.string.
Variable message_of : code -> String.string.

Local Abbreviation action := (FullNode.action transaction_type).

(** *** Channels and their transactions *)

Lemma subscribed_channels_app (l l' : list action) :
  subscribed_channels transaction_type (l ++ l')
  = subscribed_channels transaction_type l
    ++ subscribed_channels transaction_type l'.
Proof.
  induction l as [|a l IH]; [reflexivity|].
  destruct a; cbn; rewrite ?IH; reflexivity.
Qed.

Lemma stored_app (l l' : list action) :
  stored transaction_type (l ++ l')
  = stored transaction_type l ++ stored transaction_type l'.
Proof.
  induction l as [|a l IH]; [reflexivity|].
  destruct a; cbn; rewrite ?IH; reflexivity.
Qed.

(** X15: the node subscribes to the transactions of every channel that
    is announced without error, in turn, up to the first notification
    that carries an error; that one is only logged as a warning, the
    new-connection subscription is not renewed, and no channel announced
    later is subscribed. *)
Theorem node_follows_channels_until_first_failure
  (nodes : list Session.channel) (ec : code) (node : Session.channel_ptr)
  (later : list (code * Session.channel_ptr)) :
  is_error ec = true ->
  connections transaction_type message_of
    (map (fun c => (success, Some c)) nodes ++ (ec, node) :: later)
  = mk_stream false (S (length nodes))
      (flat_map
         (fun c => [node_subscribe_transaction transaction_type c;
                    protocol_subscribe_channel transaction_type]) nodes
       ++ [log transaction_type warning BN_CONNECTION_START_ERROR
             [message_of ec]])
      false /\
  subscribed_channels transaction_type
    (calls (connections transaction_type message_of
              (map (fun c => (success, Some c)) nodes ++ (ec, node) :: later)))
  = nodes.
Proof.
  intro He.
  assert (E : connections transaction_type message_of
                (map (fun c => (success, Some c)) nodes ++ (ec, node) :: later)
              = mk_stream false (S (length nodes))
                  (flat_map
                     (fun c => [node_subscribe_transaction transaction_type c;
                                protocol_subscribe_channel transaction_type])
                     nodes
                   ++ [log transaction_type warning BN_CONNECTION_START_ERROR
                         [message_of ec]])
                  false).
  { unfold connections.
    rewrite SubscriptionFacts.feed_all_until_failure.
    - rewrite length_map, flat_map_concat_map, map_map,
        <- flat_map_concat_map.
      cbn [fst snd]. unfold connection_started at 2. rewrite He.
      reflexivity.
    - intros e Hin. apply in_map_iff in Hin. destruct Hin as (c & <- & _).
      split; reflexivity.
    - cbn [fst snd]. unfold connection_started. rewrite He. reflexivity.
    - cbn [fst snd]. unfold connection_started. rewrite He. reflexivity. }
  split; [exact E|].
  rewrite E. cbn [calls]. rewrite subscribed_channels_app.
  cbn. rewrite app_nil_r. clear E.
  induction nodes as [|c nodes IH]; [reflexivity|].
  cbn. f_equal. exact IH.
Qed.

(** X16: on one channel the node stores every transaction delivered
    without error, once each and in order of arrival, up to the first
    delivery that carries an error; that one is only logged, the
    transaction subscription is not renewed, and nothing delivered later
    is stored. *)
Theorem transactions_are_stored_until_first_failure
  (node : Session.channel) (txs : list transaction_type) (ec : code)
  (tx : transaction_type) (later : list (code * transaction_type)) :
  is_error ec = true ->
  transactions_of transaction_type hash_transaction encode_hash message_of
    node (map (fun t => (success, t)) txs ++ (ec, tx) :: later)
  = mk_stream false (S (length txs))
      (flat_map
         (fun t => [tx_pool_store transaction_type t;
                    node_subscribe_transaction transaction_type node]) txs
       ++ [log transaction_type error BN_TX_RECEIVE_ERROR
             [encode_hash (hash_transaction tx); message_of ec]])
      false /\
  stored transaction_type
    (calls (transactions_of transaction_type hash_transaction encode_hash
              message_of node
              (map (fun t => (success, t)) txs ++ (ec, tx) :: later)))
  = txs.
Proof.
  intro He.
  assert (E : transactions_of transaction_type hash_transaction encode_hash
                message_of node
                (map (fun t => (success, t)) txs ++ (ec, tx) :: later)
              = mk_stream false (S (length txs))
                  (flat_map
                     (fun t => [tx_pool_store transaction_type t;
                                node_subscribe_transaction transaction_type
                                  node]) txs
                   ++ [log transaction_type error BN_TX_RECEIVE_ERROR
                         [encode_hash (hash_transaction tx); message_of ec]])
                  false).
  { unfold transactions_of.
    rewrite SubscriptionFacts.feed_all_until_failure.
    - rewrite length_map, flat_map_concat_map, map_map,
        <- flat_map_concat_map.
      cbn [fst snd]. unfold recieve_tx at 2. rewrite He. reflexivity.
    - intros e Hin. apply in_map_iff in Hin. destruct Hin as (t & <- & _).
      split; [reflexivity|]. cbn. rewrite Z.eqb_refl. reflexivity.
    - cbn [fst snd]. unfold recieve_tx. rewrite He. reflexivity.
    - cbn [fst snd]. unfold recieve_tx. rewrite He. reflexivity. }
  split; [exact E|].
  rewrite E. cbn [calls]. rewrite stored_app.
  cbn. rewrite app_nil_r. clear E.
  induction txs as [|t txs IH]; [reflexivity|].
  cbn. f_equal. exact IH.
Qed.

End WithCollaborators.

(** *** Concrete deliveries *)

Lemma node_follows_channels_until_first_failure_witness :
  is_error (other_error 1) = true /\
  subscribed_channels Z
    (calls (connections Z (fun _ => "failed")
              (map (fun c => (success, Some c)) [1; 2]
               ++ (other_error 1, None) :: [(success, Some 3)])))
  = [1; 2].
Proof.
  split; [reflexivity|].
  exact (proj2 (node_follows_channels_until_first_failure Z
                  (fun _ => "failed") [1; 2] (other_error 1) None
                  [(success, Some 3)] eq_refl)).
Defined.

Lemma transactions_are_stored_until_first_failure_witness :
  is_error (other_error 1) = true /\
  stored Z
    (calls (transactions_of Z (fun tx => tx) (fun _ => "hash")
              (fun _ => "failed") 7
              (map (fun t => (success, t)) [11; 12]
               ++ (other_error 1, 13) :: [(success, 14)])))
  = [11; 12].
Proof.
  split; [reflexivity|].
  exact (proj2 (transactions_are_stored_until_first_failure Z (fun tx => tx)
                  (fun _ => "hash") (fun _ => "failed") 7 [11; 12]
                  (other_error 1) 13 [(success, 14)] eq_refl)).
Defined.

End FullNodeFacts.

(** ** The parser *)

Module ParserFacts.

Import Parser.

Section WithBase.

Variable variables_map : Type.
Variable settings : Type.
Variable load_command_variables :
  variables_map -> list String.string -> String.string + variables_map.
Variable load_environment_variables :
  variables_map -> String.string -> String.string + variables_map.
Variable get_option : variables_map -> String.string -> bool.
Variable notify :
  variables_map -> configuration settings
  -> option String.string * configuration settings.
Variable format_invalid_parameter : String.string -> String.string.
Variable BN_CONFIG_VARIABLE : String.string.
Variable BN_HELP_VARIABLE : String.string.
Variable BN_SETTINGS_VARIABLE : String.string.
Variable BN_VERSION_VARIABLE : String.string.
Variable BN_ENVIRONMENT_VARIABLE_PREFIX : String.string.
Variable no_variables : variables_map.

(** [parse] with a given loader of the settings file. *)
Local Abbreviation parse_with loader :=
  (parse variables_map settings load_command_variables
     load_environment_variables get_option loader notify
     format_invalid_parameter BN_CONFIG_VARIABLE BN_HELP_VARIABLE
     BN_SETTINGS_VARIABLE BN_VERSION_VARIABLE BN_ENVIRONMENT_VARIABLE_PREFIX
     no_variables).

Local Abbreviation display_asked :=
  (asks_for_display variables_map load_command_variables
     load_environment_variables get_option BN_HELP_VARIABLE
     BN_SETTINGS_VARIABLE BN_VERSION_VARIABLE BN_ENVIRONMENT_VARIABLE_PREFIX
     no_variables).

(** X17: when the command line or the environment asks for the version,
    the settings or the help, [parse] does not consult the settings file
    at all (its outcome is the same whatever loading that file would do)
    and, if it succeeds, it leaves [configured.file] empty. *)
Theorem display_options_skip_the_settings_file
  (loader loader' :
     variables_map -> String.string -> String.string + bool * variables_map)
  (argv : list String.string) (c : configuration settings) :
  display_asked argv = true ->
  parse_with loader argv c = parse_with loader' argv c /\
  (result settings (parse_with loader argv c) = true ->
   file settings (configured settings (parse_with loader argv c))
   = String.EmptyString).
Proof.
  unfold asks_for_display, parse. intro H.
  destruct (load_command_variables no_variables argv) as [what|v1];
    [discriminate H|].
  destruct (load_environment_variables v1 BN_ENVIRONMENT_VARIABLE_PREFIX)
    as [what|v2]; [discriminate H|].
  rewrite <- !negb_orb, H. cbn [negb].
  split; [reflexivity|].
  destruct (notify v2 c) as [[what|] c']; cbn; [discriminate|reflexivity].
Qed.

(** X18: after a successful [parse] the path in [configured.file] is kept
    only if the settings were loaded from a file: otherwise it is
    cleared; and a [parse] that fails writes exactly one line to the
    error stream, while one that succeeds writes none. *)
Theorem settings_file_path_is_kept_only_if_loaded
  (loader :
     variables_map -> String.string -> String.string + bool * variables_map)
  (argv : list String.string) (c : configuration settings) :
  (result settings (parse_with loader argv c) = true ->
   file settings (configured settings (parse_with loader argv c))
   <> String.EmptyString ->
   display_asked argv = false /\
   exists v1 v2 v3,
     load_command_variables no_variables argv = inr v1 /\
     load_environment_variables v1 BN_ENVIRONMENT_VARIABLE_PREFIX = inr v2 /\
     loader v2 BN_CONFIG_VARIABLE = inr (true, v3)) /\
  length (errors settings (parse_with loader argv c))
  = (if result settings (parse_with loader argv c) then 0%nat else 1%nat).
Proof.
  unfold asks_for_display, parse.
  destruct (load_command_variables no_variables argv) as [what|v1] eqn:H1;
    [split; [discriminate|reflexivity]|].
  destruct (load_environment_variables v1 BN_ENVIRONMENT_VARIABLE_PREFIX)
    as [what|v2] eqn:H2; [split; [discriminate|reflexivity]|].
  rewrite <- !negb_orb.
  destruct (get_option v2 BN_VERSION_VARIABLE
            || get_option v2 BN_SETTINGS_VARIABLE
            || get_option v2 BN_HELP_VARIABLE); cbn [negb].
  - destruct (notify v2 c) as [[what|] c']; cbn;
      (split; [|reflexivity]); [discriminate|].
    intros _ Hne. contradiction.
  - destruct (loader v2 BN_CONFIG_VARIABLE) as [what|[from_file v3]] eqn:Hl;
      [split; [discriminate|reflexivity]|].
    destruct (notify v3 c) as [[what|] c']; cbn;
      (split; [|reflexivity]); [discriminate|].
    destruct from_file; cbn.
    + intros _ _. split; [reflexivity|].
      exists v1, v2, v3. auto.
    + intros _ Hne. contradiction.
Qed.

End WithBase.

Import MoreExamples.
Import String.StringSyntax.

Local Open Scope string_scope.

Lemma display_options_skip_the_settings_file_witness :
  result unit (toy_parse ["help"]) = true /\
  file unit (configured unit (toy_parse ["help"])) = "".
Proof.
  split; [reflexivity|].
  apply (proj2 (display_options_skip_the_settings_file
                  (list String.string) unit
                  (fun variables words => inr (variables ++ words))
                  (fun variables _ => inr variables)
                  (fun variables name => existsb (String.eqb name) variables)
                  (fun _ c => (None,
                               mk_configuration unit toy_path (others unit c)))
                  (fun what => what)
                  toy_config toy_help toy_settings toy_version toy_prefix []
                  (fun variables _ => inr (true, variables))
                  (fun variables _ => inl "unreadable")
                  ["help"] (mk_configuration unit "" tt) eq_refl)).
  reflexivity.
Defined.

Lemma settings_file_path_is_kept_only_if_loaded_witness :
  result unit (toy_parse ["initchain"]) = true /\
  file unit (configured unit (toy_parse ["initchain"])) <> "" /\
  asks_for_display (list String.string)
    (fun variables words => inr (variables ++ words))
    (fun variables _ => inr variables)
    (fun variables name => existsb (String.eqb name) variables)
    toy_help toy_settings toy_version toy_prefix [] ["initchain"]
  = false.
Proof.
  assert (R : result unit (toy_parse ["initchain"]) = true) by reflexivity.
  assert (F : file unit (configured unit (toy_parse ["initchain"])) <> "")
    by discriminate.
  split; [exact R|]. split; [exact F|].
  exact (proj1 (proj1 (settings_file_path_is_kept_only_if_loaded
                         (list String.string) unit
                         (fun variables words => inr (variables ++ words))
                         (fun variables _ => inr variables)
                         (fun variables name =>
                            existsb (String.eqb name) variables)
                         (fun _ c =>
                            (None,
                             mk_configuration unit toy_path (others unit c)))
                         (fun what => what)
                         toy_config toy_help toy_settings toy_version
                         toy_prefix []
                         (fun variables _ => inr (true, variables))
                         ["initchain"] (mk_configuration unit "" tt))
                  R F)).
Defined.

Example settings_file_is_loaded_without_display_options :
  toy_parse ["initchain"]
  = mk_parsed unit true (mk_configuration unit "bn.cfg" tt) [].
Proof. reflexivity. Qed.

End ParserFacts.

(** ** The protocol instance and the callbacks bound to it *)

Module ProtocolWiringFacts.

Import ProtocolHeaderSync ProtocolHeaderSyncRuns.
Import ProtocolHeaderSyncFacts ProtocolHeaderSyncRunFacts.
Import ProtocolWiring.

Section WithHeaderList.

Context {L : Type} {ops : Headers.header_list_ops L}.

Local Abbreviation state := (protocol_header_sync L).
Local Abbreviation instance := (@ProtocolWiring.instance L).

(** *** The closures that are bound *)

Lemma start_members (handler : event_handler) (i : instance) :
  members (ProtocolWiring.start handler i)
  = snd (ProtocolHeaderSync.start handler (members i)).
Proof.
  unfold ProtocolWiring.start, ProtocolWiring.send_get_headers,
    ProtocolHeaderSync.start, with_members.
  unfold_m. cbn [members stopped_ set_cleared record].
  destruct (stopped_ (members i)); reflexivity.
Qed.

Lemma start_wires (handler : event_handler) (s : bool) (l : L) (minimum : Z) :
  wired_to (synchronize (fun ec => headers_complete ec handler))
    (ProtocolWiring.start handler (ProtocolWiring.construct s l minimum)) /\
  on_event (ProtocolWiring.start handler (ProtocolWiring.construct s l minimum))
  = Some (synchronize (fun ec => headers_complete ec handler)) /\
  on_headers
    (ProtocolWiring.start handler (ProtocolWiring.construct s l minimum))
  = Some (synchronize (fun ec => headers_complete ec handler)).
Proof.
  unfold wired_to, ProtocolWiring.start, ProtocolWiring.send_get_headers,
    ProtocolWiring.construct, with_members.
  cbn [members stopped_ set_cleared record ProtocolHeaderSync.construct].
  destruct s; cbn; repeat split; intros k H;
    try (injection H as <-; reflexivity);
    try (destruct H as [<-|[]]; reflexivity);
    try destruct H.
Qed.

Lemma deliver_keeps_wiring (c : event_handler) (e : event) (i : instance) :
  wired_to c i ->
  wired_to c (ProtocolWiring.deliver e i) /\
  on_event (ProtocolWiring.deliver e i) = on_event i.
Proof.
  intros H. pose proof H as (Hev & Hh & Hs).
  unfold ProtocolWiring.deliver.
  destruct (trapped i); [auto|].
  destruct e as [ec message|ec|ec|].
  - destruct (on_headers i) as [k|]; [|auto].
    destruct (handle_receive_headers ec message k (members i)) as [keep m].
    unfold wired_to. cbn. split; [|reflexivity].
    split; [exact Hev|]. split.
    + intros k' E. destruct keep; [|discriminate E].
      injection E as <-. apply Hh. reflexivity.
    + intros k' E. destruct keep; [|apply Hs, E].
      apply in_app_or in E. destruct E as [E|[<-|[]]]; [apply Hs, E|].
      apply Hh. reflexivity.
  - destruct (on_event i) as [k|] eqn:K; [|auto].
    unfold fire.
    repeat match goal with
           | |- context [if ?b then _ else _] => destruct b
           end;
      (split; [|cbn; auto]); unfold wired_to, with_members; cbn;
      rewrite ?K; auto.
  - destruct (on_send i) as [|k rest] eqn:K; [auto|].
    unfold wired_to. cbn. split; [|reflexivity].
    split; [exact Hev|]. split; [exact Hh|].
    intros k' E. apply Hs. right. exact E.
  - cbn [on_event with_members].
    destruct (on_event i) as [k|] eqn:K.
    + unfold fire. cbn [code_eqb].
      split; [|cbn; auto]. unfold wired_to, with_members. cbn.
      rewrite ?K. auto.
    + split; [|cbn; auto]. unfold wired_to, with_members. cbn.
      rewrite ?K. auto.
Qed.

Lemma deliver_all_keeps_wiring (c : event_handler) (es : list event) :
  forall i : instance,
    wired_to c i ->
    wired_to c (ProtocolWiring.deliver_all es i) /\
    on_event (ProtocolWiring.deliver_all es i) = on_event i.
Proof.
  induction es as [|e es IH]; intros i H; [auto|].
  cbn [ProtocolWiring.deliver_all].
  destruct (deliver_keeps_wiring c e i H) as [H1 E1].
  destruct (IH _ H1) as [H2 E2].
  split; [exact H2|congruence].
Qed.

(** *** Bound callbacks are callbacks *)

Lemma deliver_simulated (e : event) (i : instance) :
  wired_to barrier i ->
  exists es,
    members (ProtocolWiring.deliver e i)
    = ProtocolHeaderSync.deliver_all es (members i) /\
    ticks es <= 1.
Proof.
  intros (Hev & Hh & Hs). unfold ProtocolWiring.deliver.
  assert (T : forall ec, ticks [timer_fired ec] <= 1).
  { intro ec. unfold ticks. cbn. destruct (negb (ends_timer ec)); cbn; lia. }
  destruct (trapped i); [exists []; split; [reflexivity|cbn; lia]|].
  destruct e as [ec message|ec|ec|].
  - destruct (on_headers i) as [k|];
      [|exists []; split; [reflexivity|cbn; lia]].
    rewrite (Hh k eq_refl).
    exists [headers_received ec message]. split; [|cbn; lia].
    cbn [ProtocolHeaderSync.deliver_all]. rewrite deliver_headers_outcome.
    rewrite handle_receive_headers_by_cases.
    destruct (receive_headers_by_cases ec message barrier (members i)).
    reflexivity.
  - destruct (on_event i) as [k|];
      [|exists []; split; [reflexivity|cbn; lia]].
    rewrite (Hev k eq_refl). unfold fire, with_members.
    destruct (code_eqb ec channel_stopped);
      [exists [timer_fired ec]; split; [reflexivity|apply T]|].
    destruct (stopped_ (members i));
      [exists []; split; [reflexivity|cbn; lia]|].
    destruct (_ && _); [exists []; split; [reflexivity|cbn; lia]|].
    exists [timer_fired ec]. split; [reflexivity|apply T].
  - destruct (on_send i) as [|k rest];
      [exists []; split; [reflexivity|cbn; lia]|].
    rewrite (Hs k (or_introl eq_refl)).
    exists [send_completed ec]. split; [reflexivity|cbn; lia].
  - cbn [on_event with_members].
    destruct (on_event i) as [k|].
    + rewrite (Hev k eq_refl).
      exists [channel_closed; timer_fired channel_stopped].
      split; [reflexivity|cbn; lia].
    + exists [channel_closed]. split; [reflexivity|cbn; lia].
Qed.

Lemma headers_not_kept_stops (ec : code) (message : list header) (p : state) :
  settled p ->
  fst (handle_receive_headers ec message barrier p) = false ->
  stopped_ (snd (handle_receive_headers ec message barrier p)) = true.
Proof.
  intros [Hc _]. rewrite handle_receive_headers_by_cases.
  unfold receive_headers_by_cases.
  destruct (stopped_ p) eqn:S; [intros _; exact S|].
  assert (C : cleared_ p = false).
  { destruct (cleared_ p); [|reflexivity].
    destruct (Hc eq_refl) as [S' _]. congruence. }
  cbv zeta. rewrite ?barrier_outcome. cbn [cleared_ set_headers].
  rewrite C.
  repeat match goal with
         | |- context [if ?b then _ else _] => destruct b
         end;
    cbn; intro H; try reflexivity; discriminate H.
Qed.

Lemma deliver_keeps_sound (e : event) (i : instance) :
  sound i -> sound (ProtocolWiring.deliver e i).
Proof.
  intros (Hw & Hev & Ho & Hs & Hl).
  destruct (deliver_keeps_wiring barrier e i Hw) as [Hw' Hev'].
  destruct (deliver_simulated e i Hw) as (es & Hm & _).
  assert (Hs' : settled (members (ProtocolWiring.deliver e i)))
    by (rewrite Hm; apply deliver_all_keeps_settled, Hs).
  split; [exact Hw'|]. split; [congruence|].
  split; [rewrite Hm; apply deliver_all_keeps_once, Ho|].
  split; [exact Hs'|].
  intro Hlive.
  assert (Hbefore : stopped_ (members i) = false).
  { destruct (stopped_ (members i)) eqn:S; [|reflexivity].
    destruct (stopped_channel_is_left_alone_aux es (members i) S) as [S' _].
    rewrite <- Hm in S'. congruence. }
  specialize (Hl Hbefore).
  revert Hlive. unfold ProtocolWiring.deliver.
  destruct (trapped i); [intros _; exact Hl|].
  destruct e as [ec message|ec|ec|].
  - rewrite Hl.
    pose proof (headers_not_kept_stops ec message (members i) Hs) as Hk.
    destruct (handle_receive_headers ec message barrier (members i))
      as [keep m].
    cbn [fst snd members on_headers] in *.
    destruct keep; [reflexivity|].
    intro H. rewrite (Hk eq_refl) in H. discriminate H.
  - rewrite Hev. unfold fire, with_members.
    repeat match goal with
           | |- context [if ?b then _ else _] => destruct b
           end;
      intros _; exact Hl.
  - destruct (on_send i); intros _; exact Hl.
  - cbn [on_event with_members]. rewrite Hev. unfold fire, with_members.
    cbn [code_eqb]. intros _. exact Hl.
Qed.

Lemma deliver_all_keeps_sound (es : list event) :
  forall i : instance, sound i -> sound (ProtocolWiring.deliver_all es i).
Proof.
  induction es as [|e es IH]; intros i H; [exact H|].
  cbn [ProtocolWiring.deliver_all]. apply IH, deliver_keeps_sound, H.
Qed.

Lemma start_is_sound (s : bool) (l : L) (minimum : Z) :
  sound (ProtocolWiring.start user_handler (ProtocolWiring.construct s l minimum)).
Proof.
  destruct (start_wires user_handler s l minimum) as (Hw & Hev & Hh).
  split; [exact Hw|]. split; [exact Hev|].
  rewrite start_members.
  split; [apply start_leaves_barrier_open|].
  split; [apply start_is_settled|].
  intros _. exact Hh.
Qed.

Lemma run_is_sound (s : bool) (l : L) (minimum : Z) (es : list event) :
  sound (ProtocolWiring.run s l minimum es).
Proof. apply deliver_all_keeps_sound, start_is_sound. Qed.

(** *** After completion *)

Lemma set_stopped_again (p : state) :
  stopped_ p = true -> set_stopped true p = p.
Proof. destruct p; cbn; intros ->; reflexivity. Qed.

Lemma with_members_same (f : state -> state) (i : instance) :
  f (members i) = members i -> with_members f i = i.
Proof. unfold with_members. intros ->. destruct i; reflexivity. Qed.

Lemma stop_event_after_completion (p : state) :
  cleared_ p = true -> snd (handle_event channel_stopped barrier p) = p.
Proof.
  intro C. rewrite handle_event_error by reflexivity.
  rewrite barrier_discards_rest by exact C. reflexivity.
Qed.

Lemma fire_after_completion (ec : code) (i : instance) :
  cleared_ (members i) = true ->
  stopped_ (members i) = true ->
  fire ec barrier i = i.
Proof.
  intros C S. unfold fire.
  destruct (code_eqb ec channel_stopped) eqn:E.
  - apply with_members_same.
    destruct ec; try discriminate E. apply stop_event_after_completion, C.
  - rewrite S. reflexivity.
Qed.

Lemma deliver_after_completion (e : event) (i : instance) :
  sound i ->
  cleared_ (members i) = true ->
  members (ProtocolWiring.deliver e i) = members i.
Proof.
  intros (Hw & Hev & _ & [Hc _] & _) C.
  destruct (Hc C) as [S _].
  destruct Hw as (_ & Hh & Hs).
  unfold ProtocolWiring.deliver.
  destruct (trapped i); [reflexivity|].
  destruct e as [ec message|ec|ec|].
  - destruct (on_headers i) as [k|]; [|reflexivity].
    rewrite (Hh k eq_refl), handle_receive_headers_by_cases.
    unfold receive_headers_by_cases. rewrite S. reflexivity.
  - rewrite Hev, fire_after_completion by assumption. reflexivity.
  - destruct (on_send i) as [|k rest]; [reflexivity|].
    rewrite (Hs k (or_introl eq_refl)). cbn [members].
    rewrite handle_send_outcome, S. reflexivity.
  - cbn [on_event with_members]. rewrite Hev.
    rewrite (with_members_same (set_stopped true) i)
      by (apply set_stopped_again, S).
    rewrite fire_after_completion by assumption.
    reflexivity.
Qed.

Lemma deliver_all_after_completion (es : list event) :
  forall i : instance,
    sound i ->
    cleared_ (members i) = true ->
    members (ProtocolWiring.deliver_all es i) = members i.
Proof.
  induction es as [|e es IH]; intros i H C; [reflexivity|].
  cbn [ProtocolWiring.deliver_all].
  pose proof (deliver_after_completion e i H C) as E.
  rewrite IH; [exact E | apply deliver_keeps_sound, H | rewrite E; exact C].
Qed.

Lemma deliver_all_app_wired (es more : list event) (i : instance) :
  ProtocolWiring.deliver_all (es ++ more) i
  = ProtocolWiring.deliver_all more (ProtocolWiring.deliver_all es i).
Proof.
  revert i. induction es as [|e es IH]; intro i; [reflexivity|].
  cbn [ProtocolWiring.deliver_all app]. apply IH.
Qed.

(** *** A channel that closes *)

Lemma trapped_stays (es : list event) :
  forall i : instance,
    trapped i = true -> ProtocolWiring.deliver_all es i = i.
Proof.
  induction es as [|e es IH]; intros i T; [reflexivity|].
  cbn [ProtocolWiring.deliver_all].
  assert (E : ProtocolWiring.deliver e i = i)
    by (unfold ProtocolWiring.deliver; rewrite T; reflexivity).
  rewrite E. apply IH, T.
Qed.

Lemma closing_completes (i : instance) :
  sound i ->
  trapped i = false ->
  cleared_ (members (ProtocolWiring.deliver channel_closed i)) = true.
Proof.
  intros (_ & Hev & _) T. unfold ProtocolWiring.deliver. rewrite T.
  cbn [on_event with_members]. rewrite Hev.
  unfold fire, with_members. cbn [code_eqb members].
  change (snd (handle_event channel_stopped barrier
                 (set_stopped true (members i))))
    with (snd (ProtocolHeaderSync.deliver (timer_fired channel_stopped)
                 (set_stopped true (members i)))).
  apply channel_stop_event_closes.
Qed.

Lemma closed_run_completes (es : list event) :
  forall i : instance,
    sound i ->
    In channel_closed es ->
    trapped (ProtocolWiring.deliver_all es i) = false ->
    cleared_ (members (ProtocolWiring.deliver_all es i)) = true.
Proof.
  induction es as [|e es IH]; intros i H Hin T; [destruct Hin|].
  cbn [ProtocolWiring.deliver_all] in *.
  destruct Hin as [->|Hin].
  - assert (Ti : trapped i = false).
    { destruct (trapped i) eqn:Ti; [|reflexivity].
      assert (E : ProtocolWiring.deliver channel_closed i = i)
        by (unfold ProtocolWiring.deliver; rewrite Ti; reflexivity).
      rewrite E, trapped_stays in T by exact Ti. congruence. }
    pose proof (closing_completes i H Ti) as C.
    rewrite deliver_all_after_completion;
      [exact C | apply deliver_keeps_sound, H | exact C].
  - apply IH; [apply deliver_keeps_sound, H | exact Hin | exact T].
Qed.

(** *** An instance that was not started *)

Lemma unbound_stays (es : list event) :
  forall i : instance,
    on_event i = None ->
    on_headers i = None ->
    on_send i = [] ->
    trace_ (members (ProtocolWiring.deliver_all es i)) = trace_ (members i).
Proof.
  induction es as [|e es IH]; intros i He Hh Hs; [reflexivity|].
  cbn [ProtocolWiring.deliver_all].
  assert (E : ProtocolWiring.deliver e i = i
              \/ ProtocolWiring.deliver e i = with_members (set_stopped true) i).
  { unfold ProtocolWiring.deliver.
    destruct (trapped i); [auto|].
    destruct e; rewrite ?He, ?Hh, ?Hs; auto.
    cbn [on_event with_members]. rewrite He. auto. }
  destruct E as [->| ->]; [apply IH; assumption|].
  rewrite IH; [reflexivity|assumption..].
Qed.

(** *** Every run of the bound callbacks is a run of the handlers *)

Lemma deliver_all_simulated (es : list event) :
  forall i : instance,
    wired_to barrier i ->
    exists es',
      members (ProtocolWiring.deliver_all es i)
      = ProtocolHeaderSync.deliver_all es' (members i).
Proof.
  induction es as [|e es IH]; intros i H; [exists []; reflexivity|].
  cbn [ProtocolWiring.deliver_all].
  destruct (deliver_simulated e i H) as (es1 & E1 & _).
  destruct (IH _ (proj1 (deliver_keeps_wiring barrier e i H))) as [es2 E2].
  exists (es1 ++ es2). rewrite E2, E1. symmetry. apply deliver_all_app.
Qed.

(** The members after a run of the bound callbacks are those after a run
    of [ProtocolHeaderSync.deliver]: what holds of all of those runs holds
    of these. *)
Lemma wired_run_is_a_run (s : bool) (l : L) (minimum : Z) (es : list event) :
  exists es',
    members (ProtocolWiring.run s l minimum es)
    = ProtocolHeaderSync.run s l minimum es'.
Proof.
  unfold ProtocolWiring.run, run_with, ProtocolHeaderSync.run.
  destruct (deliver_all_simulated es _
              (proj1 (start_wires user_handler s l minimum))) as [es' E].
  exists es'. rewrite E, start_members. reflexivity.
Qed.

(** *** The division by zero *)

Lemma trap_cause (e : event) (i : instance) :
  trapped i = false ->
  trapped (ProtocolWiring.deliver e i) = true ->
  to_size (current_second_ (members i) + expiry_interval) = 0.
Proof.
  intro T. unfold ProtocolWiring.deliver. rewrite T.
  destruct e as [ec message|ec|ec|].
  - destruct (on_headers i); [|congruence].
    destruct (handle_receive_headers _ _ _ _). cbn. discriminate.
  - destruct (on_event i); [|congruence]. unfold fire, with_members.
    destruct (code_eqb ec channel_stopped); [cbn; congruence|].
    destruct (stopped_ (members i)); [congruence|].
    destruct (negb (ends_timer ec)); cbn [andb].
    + destruct (Z.eqb_spec
                  (to_size (current_second_ (members i) + expiry_interval)) 0);
        [auto|cbn; congruence].
    + cbn; congruence.
  - destruct (on_send i); [congruence|cbn; discriminate].
  - cbn [on_event with_members].
    destruct (on_event i); unfold fire, with_members; cbn; congruence.
Qed.

Lemma wired_clock (es : list event) :
  forall (i : instance) (n : nat),
    wired_to barrier i ->
    current_second_ (members i) = to_size (expiry_interval * Z.of_nat n) ->
    trapped i = false ->
    trapped (ProtocolWiring.deliver_all es i) = true ->
    size_modulus <= Z.of_nat (n + length es).
Proof.
  induction es as [|e es IH]; intros i n Hw Hn T Htrap.
  - cbn in Htrap. congruence.
  - cbn [ProtocolWiring.deliver_all] in Htrap.
    destruct (trapped (ProtocolWiring.deliver e i)) eqn:T'.
    + pose proof (trap_cause e i T T') as Hz.
      rewrite Hn in Hz. unfold to_size in Hz.
      rewrite Zplus_mod_idemp_l in Hz.
      apply Z.mod_divide in Hz; [|discriminate].
      replace (expiry_interval * Z.of_nat n + expiry_interval)
        with (expiry_interval * (Z.of_nat n + 1)) in Hz
        by (unfold expiry_interval; lia).
      apply Z.gauss in Hz; [|reflexivity].
      apply Z.divide_pos_le in Hz; [|lia].
      cbn [length]. lia.
    + destruct (deliver_simulated e i Hw) as (es1 & E1 & Ht).
      assert (Hm : exists m,
                 (m <= S n)%nat /\
                 current_second_ (members (ProtocolWiring.deliver e i))
                 = to_size (expiry_interval * Z.of_nat m)).
      { rewrite E1, (deliver_all_clock es1 (members i) _ Hn).
        assert (H0 : 0 <= ticks es1) by (unfold ticks; lia).
        destruct (Z.eq_dec (ticks es1) 0) as [Z0|Z1].
        - exists n. split; [lia|]. rewrite Z0. f_equal. lia.
        - exists (S n). split; [lia|].
          replace (ticks es1) with 1 by lia. f_equal. lia. }
      destruct Hm as (m & Hle & Hcur).
      pose proof (IH _ m (proj1 (deliver_keeps_wiring barrier e i Hw))
                    Hcur T' Htrap).
      cbn [length]. lia.
Qed.

Lemma trapped_run_is_long (s : bool) (l : L) (minimum : Z)
  (es : list event) :
  trapped (ProtocolWiring.run s l minimum es) = true ->
  size_modulus <= Z.of_nat (length es).
Proof.
  intro H.
  apply (wired_clock es _ 0%nat
           (proj1 (start_wires user_handler s l minimum))); [| |exact H].
  - rewrite start_members.
    unfold ProtocolHeaderSync.start, ProtocolHeaderSync.construct. unfold_m.
    destruct s; reflexivity.
  - unfold ProtocolWiring.start, ProtocolWiring.send_get_headers,
      ProtocolWiring.construct, with_members.
    destruct s; reflexivity.
Qed.

Lemma synchronize_outcome (handler : event_handler) (ec : code) (p : state) :
  snd (synchronize (fun ec' => headers_complete ec' handler) ec p)
  = if cleared_ p then p
    else set_stopped true
           (record (stop_channel channel_stopped)
              (snd (handler ec (set_cleared true p)))).
Proof.
  unfold synchronize, headers_complete, stop. unfold_m.
  destruct (cleared_ p); [reflexivity|].
  destruct (handler ec (set_cleared true p)) as [[] q]. reflexivity.
Qed.

(** C3: [start(handler)] binds one closure, the synchronizer over
    [headers_complete] and the handler it was given, into the timer, the
    [headers] subscription and every send, and nothing else is ever bound;
    the closure runs the handler and then asks the channel to stop with
    [channel_stopped] on its first invocation, and does nothing on the
    later ones.  So in every run of the bound callbacks the handler is
    invoked at most once; once any producer has fired it has been invoked
    exactly once, with that producer's code, the stop request follows it,
    the channel is stopped, and whatever is delivered later changes
    nothing; a run whose channel closes has fired, unless the rate was
    divided by zero, which takes 2^64 callbacks; and an instance that was
    never started invokes nothing. *)
Theorem handler_given_to_start_runs_once (s : bool) (l : L) (minimum : Z)
  (es : list event) :
  (forall handler : event_handler,
     wired_to (synchronize (fun ec => headers_complete ec handler))
       (run_with handler s l minimum es) /\
     on_event (run_with handler s l minimum es)
     = Some (synchronize (fun ec => headers_complete ec handler))) /\
  (forall (handler : event_handler) (ec : code) (p : state),
     snd (synchronize (fun ec' => headers_complete ec' handler) ec p)
     = if cleared_ p then p
       else set_stopped true
              (record (stop_channel channel_stopped)
                 (snd (handler ec (set_cleared true p))))) /\
  (length (handler_calls
             (trace_ (members (ProtocolWiring.run s l minimum es)))) <= 1)%nat /\
  (cleared_ (members (ProtocolWiring.run s l minimum es)) = false ->
   completions (trace_ (members (ProtocolWiring.run s l minimum es))) = []) /\
  (cleared_ (members (ProtocolWiring.run s l minimum es)) = true ->
   (exists ec,
      completions (trace_ (members (ProtocolWiring.run s l minimum es)))
      = [invoke_handler ec; stop_channel channel_stopped] /\
      handler_calls (trace_ (members (ProtocolWiring.run s l minimum es)))
      = [ec]) /\
   stopped_ (members (ProtocolWiring.run s l minimum es)) = true /\
   forall more,
     members (ProtocolWiring.run s l minimum (es ++ more))
     = members (ProtocolWiring.run s l minimum es)) /\
  (In channel_closed es ->
   trapped (ProtocolWiring.run s l minimum es) = false ->
   cleared_ (members (ProtocolWiring.run s l minimum es)) = true) /\
  (trapped (ProtocolWiring.run s l minimum es) = true ->
   size_modulus <= Z.of_nat (length es)) /\
  handler_calls
    (trace_ (members (ProtocolWiring.deliver_all es
                        (ProtocolWiring.construct s l minimum)))) = [].
Proof.
  pose proof (run_is_sound s l minimum es) as (_ & _ & Honce & [Hc _] & _).
  unfold completed_once in Honce.
  split; [|split; [|split; [|split; [|split; [|split; [|split]]]]]].
  - intro handler. unfold run_with.
    destruct (deliver_all_keeps_wiring _ es _
                (proj1 (start_wires handler s l minimum))) as [Hw He].
    split; [exact Hw|].
    rewrite He. exact (proj1 (proj2 (start_wires handler s l minimum))).
  - apply synchronize_outcome.
  - rewrite <- handler_calls_completions.
    destruct (cleared_ (members (ProtocolWiring.run s l minimum es))).
    + destruct Honce as [ec ->]. cbn. lia.
    + rewrite Honce. cbn. lia.
  - intro C. rewrite C in Honce. exact Honce.
  - intro C. rewrite C in Honce. split; [|split].
    + destruct Honce as [ec Hec]. exists ec. split; [exact Hec|].
      rewrite <- handler_calls_completions, Hec. reflexivity.
    + exact (proj1 (Hc C)).
    + intro more. unfold ProtocolWiring.run, run_with.
      rewrite deliver_all_app_wired.
      apply deliver_all_after_completion;
        [apply deliver_all_keeps_sound, start_is_sound|exact C].
  - intros Hin T. apply closed_run_completes;
      [apply start_is_sound|exact Hin|exact T].
  - apply trapped_run_is_long.
  - rewrite unbound_stays; reflexivity.
Qed.

(** C8: once a run has reached a terminal state, that is once the barrier
    has fired and the stop has been requested, the channel is stopped and
    a timer event delivered to the instance leaves it exactly as it was:
    no handler call, no request, no change of any member.  A tick is kept
    from [handle_event] by the [stopped()] test of the timer it comes
    through, whatever the instance, and [channel_stopped], which is handed
    over regardless, is discarded by the barrier. *)
Theorem tick_after_stop_is_a_no_op (s : bool) (l : L) (minimum : Z)
  (es : list event) (ec : code) :
  cleared_ (members (ProtocolWiring.run s l minimum es)) = true ->
  stopped_ (members (ProtocolWiring.run s l minimum es)) = true /\
  ProtocolWiring.deliver (timer_fired ec) (ProtocolWiring.run s l minimum es)
  = ProtocolWiring.run s l minimum es /\
  (forall i : instance,
     stopped_ (members i) = true ->
     code_eqb ec channel_stopped = false ->
     ProtocolWiring.deliver (timer_fired ec) i = i).
Proof.
  intro C.
  pose proof (run_is_sound s l minimum es) as (_ & Hev & _ & [Hc _] & _).
  destruct (Hc C) as [S _].
  split; [exact S|]. split.
  - unfold ProtocolWiring.deliver.
    destruct (trapped (ProtocolWiring.run s l minimum es)); [reflexivity|].
    rewrite Hev. apply fire_after_completion; assumption.
  - intros i Si E. unfold ProtocolWiring.deliver.
    destruct (trapped i); [reflexivity|].
    destruct (on_event i); [|reflexivity].
    unfold fire. rewrite E, Si. reflexivity.
Qed.

End WithHeaderList.

Import HeaderList Examples.

Lemma handler_given_to_start_runs_once_witness :
  In channel_closed [channel_closed] /\
  trapped closed = false /\
  cleared_ (members closed) = true /\
  trace_ (members closed)
  = [start_timer 5; subscribe_headers; send_get_headers_request [16] 19;
     invoke_handler channel_stopped; stop_channel channel_stopped].
Proof.
  split; [left; reflexivity|].
  split; [reflexivity|].
  split; [|reflexivity].
  exact (proj1 (proj2 (proj2 (proj2 (proj2 (proj2
           (handler_given_to_start_runs_once false toy_table 10
              [channel_closed]))))))
           (or_introl eq_refl) eq_refl).
Defined.

Lemma tick_after_stop_is_a_no_op_witness :
  cleared_ (members synced) = true /\
  trace_ (members synced)
  = [start_timer 5; subscribe_headers; send_get_headers_request [16] 19;
     invoke_handler success; stop_channel channel_stopped] /\
  ProtocolWiring.deliver (timer_fired channel_timeout) synced = synced.
Proof.
  split; [reflexivity|].
  split; [reflexivity|].
  exact (proj1 (proj2
           (tick_after_stop_is_a_no_op false toy_table 10
              [headers_received success good_batch] channel_timeout
              eq_refl))).
Defined.

End ProtocolWiringFacts.
